(** * zipassets: serving the members of an archive from memory

    A shallow embedding of the Go package [zipassets] (archive loader,
    content store, conditional and partial-content request handler, range
    parser and multipart/byteranges size accounting), with the properties
    of its specification stated and settled against that embedding.

    Conventions.
    - Go [string] is [string]; Go [[]byte] is [list ascii].
    - Go [int64] is [Z] with the two's-complement wrap-around written out
      ([int64]); Go [int] lengths are [Z.of_nat] of a list length.
    - [http.Header] and the store [map[string]*filecontent] are stdpp
      [gmap]s; pointers are locations into an explicit heap.
    - Functions of the Go standard library whose tables are not part of the
      package (MIME tables, content sniffing, HTTP dates, path cleaning, the
      archive readers, the random source) are fields of an environment. *)

From Stdlib Require Import ZArith Ascii String List Lia Bool.
From stdpp Require Import base option gmap strings list.

Local Open Scope string_scope.
Local Open Scope Z_scope.

(* ===================================================================== *)
(** ** Machine integers *)
(* ===================================================================== *)

Definition int64_min : Z := - 2 ^ 63.
Definition int64_max : Z := 2 ^ 63 - 1.

(** Two's-complement reduction of a mathematical integer to [int64]. *)
Definition int64 (z : Z) : Z := (z + 2 ^ 63) mod 2 ^ 64 - 2 ^ 63.

Definition in_int64 (z : Z) : Prop := int64_min <= z <= int64_max.

(* ===================================================================== *)
(** ** The parts of [strings], [strconv] and [fmt] the package uses *)
(* ===================================================================== *)

Definition bytes := list ascii.

Definition code (a : ascii) : Z := Z.of_N (N_of_ascii a).

Fixpoint HasPrefix (s p : string) : bool :=
  match p, s with
  | EmptyString, _ => true
  | String b p', String a s' => if Ascii.eqb a b then HasPrefix s' p' else false
  | String _ _, EmptyString => false
  end.

Fixpoint string_rev_acc (s acc : string) : string :=
  match s with
  | EmptyString => acc
  | String a s' => string_rev_acc s' (String a acc)
  end.

Definition string_rev (s : string) : string := string_rev_acc s EmptyString.

Definition HasSuffix (s p : string) : bool :=
  HasPrefix (string_rev s) (string_rev p).

(** [s[n:]] and [s[:n]] for an index already known to be in range. *)
Fixpoint drop_str (n : nat) (s : string) : string :=
  match n, s with
  | O, _ => s
  | S n', String _ s' => drop_str n' s'
  | S _, EmptyString => EmptyString
  end.

Fixpoint take_str (n : nat) (s : string) : string :=
  match n, s with
  | O, _ => EmptyString
  | S n', String a s' => String a (take_str n' s')
  | S _, EmptyString => EmptyString
  end.

(** [strings.ToLower] on the ASCII letters. *)
Definition lower_ascii (a : ascii) : ascii :=
  let c := code a in
  if (65 <=? c) && (c <=? 90) then ascii_of_N (Z.to_N (c + 32)) else a.

Fixpoint ToLower (s : string) : string :=
  match s with
  | EmptyString => EmptyString
  | String a s' => String (lower_ascii a) (ToLower s')
  end.

(** [strings.Split(s, sep)] for a one-byte separator: never empty, the
    empty string splits into one empty piece. *)
Fixpoint Split (s : string) (sep : ascii) : list string :=
  match s with
  | EmptyString => [EmptyString]
  | String a s' =>
      if Ascii.eqb a sep then EmptyString :: Split s' sep
      else match Split s' sep with
           | h :: t => String a h :: t
           | [] => [String a EmptyString]
           end
  end.

(** [strings.Index(s, sep)] for a one-byte separator: the index of its
    first occurrence, or -1. *)
Fixpoint Index (s : string) (sep : ascii) : Z :=
  match s with
  | EmptyString => -1
  | String a s' =>
      if Ascii.eqb a sep then 0
      else let i := Index s' sep in if i <? 0 then -1 else i + 1
  end.

(** White space as [unicode.IsSpace] sees it on UTF-8 text: the six ASCII
    characters, and the two- and three-byte encodings of U+0085, U+00A0,
    U+1680, U+2000..U+200A, U+2028, U+2029, U+202F, U+205F and U+3000. *)
Definition isSpace1 (a : ascii) : bool :=
  let c := code a in ((9 <=? c) && (c <=? 13)) || (c =? 32).

Definition isSpace2 (a b : ascii) : bool :=
  (code a =? 194) && ((code b =? 133) || (code b =? 160)).

Definition isSpace3 (a b c : ascii) : bool :=
  let x := code a in let y := code b in let z := code c in
  ((x =? 225) && (y =? 154) && (z =? 128))
  || ((x =? 226) && (y =? 128)
      && (((128 <=? z) && (z <=? 138)) || (z =? 168) || (z =? 169) || (z =? 175)))
  || ((x =? 226) && (y =? 129) && (z =? 159))
  || ((x =? 227) && (y =? 128) && (z =? 128)).

Fixpoint trimLeftSpace (s : string) : string :=
  match s with
  | String a r1 =>
      if isSpace1 a then trimLeftSpace r1
      else match r1 with
           | String b r2 =>
               if isSpace2 a b then trimLeftSpace r2
               else match r2 with
                    | String c r3 =>
                        if isSpace3 a b c then trimLeftSpace r3 else s
                    | EmptyString => s
                    end
           | EmptyString => s
           end
  | EmptyString => s
  end.

(** The same scan on the reversed text, where the bytes of a rune come
    last byte first. *)
Fixpoint trimLeftSpaceRev (s : string) : string :=
  match s with
  | String a r1 =>
      if isSpace1 a then trimLeftSpaceRev r1
      else match r1 with
           | String b r2 =>
               if isSpace2 b a then trimLeftSpaceRev r2
               else match r2 with
                    | String c r3 =>
                        if isSpace3 c b a then trimLeftSpaceRev r3 else s
                    | EmptyString => s
                    end
           | EmptyString => s
           end
  | EmptyString => s
  end.

Definition TrimSpace (s : string) : string :=
  string_rev (trimLeftSpaceRev (string_rev (trimLeftSpace s))).

(** Decimal digits. *)
Definition digit_val (a : ascii) : option Z :=
  let c := code a in
  if (48 <=? c) && (c <=? 57) then Some (c - 48) else None.

Fixpoint parse_digits (s : string) (acc : Z) : option Z :=
  match s with
  | EmptyString => Some acc
  | String a s' =>
      match digit_val a with
      | Some d => parse_digits s' (acc * 10 + d)
      | None => None
      end
  end.

(** [strconv.ParseUint(s, 10, 64)]: [None] stands for any error. *)
Definition ParseUint (s : string) : option Z :=
  match s with
  | EmptyString => None
  | _ => match parse_digits s 0 with
         | Some n => if n <? 2 ^ 64 then Some n else None
         | None => None
         end
  end.

(** [strconv.ParseInt(s, 10, 64)]: an optional sign, then digits; a value
    outside [int64] is an error like any other ([None]). *)
Definition ParseInt (s : string) : option Z :=
  match s with
  | EmptyString => None
  | String a s' =>
      let '(neg, body) :=
        if Ascii.eqb a "+" then (false, s')
        else if Ascii.eqb a "-" then (true, s')
        else (false, s) in
      match ParseUint body with
      | None => None
      | Some un =>
          if negb neg && (2 ^ 63 <=? un) then None
          else if neg && (2 ^ 63 <? un) then None
          else Some (if neg then - un else un)
      end
  end.

Definition digit_char (d : Z) : ascii := ascii_of_N (Z.to_N (48 + d)).

(** The decimal digits of a natural number, most significant first. *)
Fixpoint digits (fuel : nat) (n : Z) : string :=
  match fuel with
  | O => EmptyString
  | S fuel' =>
      if n <? 10 then String (digit_char n) EmptyString
      else digits fuel' (n / 10) +:+ String (digit_char (n mod 10)) EmptyString
  end.

(** [strconv.FormatInt(i, 10)] and [%d] of an [int64]. *)
Definition FormatInt (i : Z) : string :=
  if i <? 0 then String "-" (digits 20 (- i)) else digits 20 i.

(* ===================================================================== *)
(** ** Byte ranges *)
(* ===================================================================== *)

(** [httpRange] specifies the byte range to be sent to the client. *)
Record httpRange := mkRange { start : Z; length : Z }.

Definition contentRange (r : httpRange) (size : Z) : string :=
  "bytes " +:+ FormatInt (start r) +:+ "-"
  +:+ FormatInt (int64 (int64 (start r + length r) - 1))
  +:+ "/" +:+ FormatInt size.

(** Results of the fallible functions: the error carries its message. *)
Inductive result (A : Type) :=
| Ok (a : A)
| Err (msg : string).
Arguments Ok {A} a.
Arguments Err {A} msg.

(** One comma-separated entry of a Range header, already trimmed and not
    blank: the body of the loop of [parseRange]. *)
Definition parseOne (ra : string) (size : Z) : result httpRange :=
  let i := Index ra "-" in
  if i <? 0 then Err "invalid range"
  else
    let start := TrimSpace (take_str (Z.to_nat i) ra) in
    let end_ := TrimSpace (drop_str (Z.to_nat (i + 1)) ra) in
    if String.eqb start "" then
      match ParseInt end_ with
      | None => Err "invalid range"
      | Some i =>
          let i := if size <? i then size else i in
          let rstart := int64 (size - i) in
          Ok (mkRange rstart (int64 (size - rstart)))
      end
    else
      match ParseInt start with
      | None => Err "invalid range"
      | Some i =>
          if (size <? i) || (i <? 0) then Err "invalid range"
          else
            let rstart := i in
            if String.eqb end_ "" then
              Ok (mkRange rstart (int64 (size - rstart)))
            else
              match ParseInt end_ with
              | None => Err "invalid range"
              | Some i =>
                  if i <? rstart then Err "invalid range"
                  else
                    let i := if size <=? i then int64 (size - 1) else i in
                    Ok (mkRange rstart (int64 (int64 (i - rstart) + 1)))
              end
      end.

Fixpoint parseEntries (pieces : list string) (size : Z) (ranges : list httpRange)
  : result (list httpRange) :=
  match pieces with
  | [] => Ok ranges
  | ra :: rest =>
      let ra := TrimSpace ra in
      if String.eqb ra "" then parseEntries rest size ranges
      else match parseOne ra size with
           | Err e => Err e
           | Ok r => parseEntries rest size (ranges ++ [r])%list
           end
  end.

(** [parseRange] parses a Range header string as per RFC 2616. *)
Definition parseRange (s : string) (size : Z) : result (list httpRange) :=
  if String.eqb s "" then Ok []
  else if negb (HasPrefix s "bytes=") then Err "invalid range"
  else parseEntries (Split (drop_str 6 s) ",") size [].

Definition sumRangesSize (ranges : list httpRange) : Z :=
  fold_left (fun size ra => int64 (size + length ra)) ranges 0.


(** Go's [len], as the [int64] the handler converts it to. *)
Definition len {A} (l : list A) : Z := Z.of_nat (List.length l).

Definition bytes_of_string (s : string) : bytes := list_ascii_of_string s.

(* ===================================================================== *)
(** ** Requests, responses and the environment *)
(* ===================================================================== *)

(** [http.Header]: canonical key to its values. *)
Abbreviation Header := (gmap string (list string)).

Definition upper_ascii (a : ascii) : ascii :=
  let c := code a in
  if (97 <=? c) && (c <=? 122) then ascii_of_N (Z.to_N (c - 32)) else a.

(** [textproto.CanonicalMIMEHeaderKey]: upper case at the start and after
    each dash, lower case elsewhere. *)
Fixpoint canonical (upper : bool) (s : string) : string :=
  match s with
  | EmptyString => EmptyString
  | String a s' =>
      String (if upper then upper_ascii a else lower_ascii a)
             (canonical (Ascii.eqb a "-") s')
  end.

Definition CanonicalMIMEHeaderKey (s : string) : string := canonical true s.

(** [h.Get(key)]: the first value of the canonical key, or the empty string. *)
Definition Header_Get (h : Header) (key : string) : string :=
  match h !! CanonicalMIMEHeaderKey key with
  | Some (v :: _) => v
  | _ => ""
  end.

(** [h.Set(key, value)]. *)
Definition Header_Set (h : Header) (key value : string) : Header :=
  <[CanonicalMIMEHeaderKey key := [value]]> h.

Record Request := mkRequest {
  Method : string;
  URLPath : string;
  ReqHeader : Header
}.

(** An [http.ResponseWriter] as a recorder: the header map, the status
    written by the first [WriteHeader], and the body written so far. *)
Record ResponseWriter := mkResponse {
  RespHeader : Header;
  Status : option Z;
  Body : bytes
}.

Definition setHeader (w : ResponseWriter) (key value : string) : ResponseWriter :=
  mkResponse (Header_Set (RespHeader w) key value) (Status w) (Body w).

Definition delHeader (w : ResponseWriter) (key : string) : ResponseWriter :=
  mkResponse (delete key (RespHeader w)) (Status w) (Body w).

Definition WriteHeader (w : ResponseWriter) (c : Z) : ResponseWriter :=
  match Status w with
  | Some _ => w
  | None => mkResponse (RespHeader w) (Some c) (Body w)
  end.

Definition Write (w : ResponseWriter) (p : bytes) : ResponseWriter :=
  let w := WriteHeader w 200 in
  mkResponse (RespHeader w) (Status w) (Body w ++ p)%list.

Definition StatusOK : Z := 200.
Definition StatusPartialContent : Z := 206.
Definition StatusNotModified : Z := 304.
Definition StatusNotFound : Z := 404.
Definition StatusRequestedRangeNotSatisfiable : Z := 416.

Definition newline : string := String (ascii_of_N 10) EmptyString.
Definition crlf : string := String (ascii_of_N 13) newline.

(** [http.Error]: a plain-text reply with the message and a newline. *)
Definition http_Error (w : ResponseWriter) (msg : string) (c : Z) : ResponseWriter :=
  let w := setHeader w "Content-Type" "text/plain; charset=utf-8" in
  let w := WriteHeader w c in
  Write w (bytes_of_string (msg +:+ newline)).

Definition http_NotFound (w : ResponseWriter) : ResponseWriter :=
  http_Error w "404 page not found" StatusNotFound.

(** What the package takes from the Go library and the machine.  Instants
    ([time.Time]) are nanoseconds counted from the zero time, so that
    [IsZero] is equality with 0. *)
Record Env := mkEnv {
  TypeByExtension : string -> string;
  DetectContentType : bytes -> string;
  ParseTime : string -> option Z;
  FormatTime : Z -> string;
  randByte : nat -> ascii
}.

Definition second : Z := 1000000000.

(** [filepath.Ext]: the suffix of the last path element from its last dot. *)
Fixpoint ext_rev (r : string) (acc : string) : string :=
  match r with
  | EmptyString => EmptyString
  | String a r' =>
      if Ascii.eqb a "/" then EmptyString
      else if Ascii.eqb a "." then String a acc
      else ext_rev r' (String a acc)
  end.

Definition Ext (path : string) : string := ext_rev (string_rev path) EmptyString.

(* ===================================================================== *)
(** ** The content store *)
(* ===================================================================== *)

Record filecontent := mkFile {
  name : string;
  isDir : bool;
  lastModified : Z;
  content : bytes
}.

Definition loc := positive.

(** [ZipAssets]: the map holds pointers; what they point to is in [heap]. *)
Record ZipAssets := mkZA {
  path : string;
  files : gmap string loc;
  heap : gmap loc filecontent
}.

(** [*za.files[key]], when the key is present. *)
Definition lookupFile (za : ZipAssets) (key : string) : option filecontent :=
  match files za !! key with
  | Some l => heap za !! l
  | None => None
  end.

(* ===================================================================== *)
(** ** Conditional requests *)
(* ===================================================================== *)

(** [checkLastModified]: the response, and whether the request is complete. *)
Definition checkLastModified (env : Env) (w : ResponseWriter) (r : Request)
    (modtime : Z) : ResponseWriter * bool :=
  if modtime =? 0 then (w, false)
  else
    match ParseTime env (Header_Get (ReqHeader r) "If-Modified-Since") with
    | Some t =>
        if modtime <? t + 1 * second then
          let w := delHeader w "Content-Type" in
          let w := delHeader w "Content-Length" in
          (WriteHeader w StatusNotModified, true)
        else (setHeader w "Last-Modified" (FormatTime env modtime), false)
    | None => (setHeader w "Last-Modified" (FormatTime env modtime), false)
    end.

(** [checkETag] implements the If-None-Match and If-Range checks: the
    response, the effective Range header, and whether the request is done. *)
Definition checkETag (w : ResponseWriter) (r : Request)
    : ResponseWriter * string * bool :=
  let etag := Header_Get (RespHeader w) "Etag" in
  let rangeReq := Header_Get (ReqHeader r) "Range" in
  let ir := Header_Get (ReqHeader r) "If-Range" in
  let rangeReq :=
    if negb (String.eqb ir "") && negb (String.eqb ir etag) then "" else rangeReq in
  let inm := Header_Get (ReqHeader r) "If-None-Match" in
  if negb (String.eqb inm "") then
    if String.eqb etag "" then (w, rangeReq, false)
    else if negb (String.eqb (Method r) "GET") && negb (String.eqb (Method r) "HEAD")
    then (w, rangeReq, false)
    else if String.eqb inm etag || String.eqb inm "*" then
      let w := delHeader w "Content-Type" in
      let w := delHeader w "Content-Length" in
      (WriteHeader w StatusNotModified, "", true)
    else (w, rangeReq, false)
  else (w, rangeReq, false).

(* ===================================================================== *)
(** ** multipart/byteranges *)
(* ===================================================================== *)

Definition hex_digit (n : Z) : ascii :=
  if n <? 10 then ascii_of_N (Z.to_N (48 + n)) else ascii_of_N (Z.to_N (87 + n)).

(** [%x] of a byte slice: two lower-case digits per byte. *)
Fixpoint hex (l : bytes) : string :=
  match l with
  | [] => EmptyString
  | a :: l' => String (hex_digit (code a / 16)) (String (hex_digit (code a mod 16)) (hex l'))
  end.

(** [randomBoundary]: thirty bytes of the random source, in hexadecimal.
    [k] numbers the writers created while one request is served. *)
Definition randomBoundary (env : Env) (k : nat) : string :=
  hex (map (randByte env) (seq (30 * k) 30)).

(** A [textproto.MIMEHeader], keys in the order they are written (sorted;
    where the library ranges over the map in another order the bytes are
    the same lines in that order, and their number is the same). *)
Definition MIMEHeader := list (string * list string).

Definition mimeHeader (r : httpRange) (contentType : string) (size : Z) : MIMEHeader :=
  [("Content-Range", [contentRange r size]); ("Content-Type", [contentType])].

Definition headerLines (h : MIMEHeader) : string :=
  fold_right (fun kv acc =>
    fold_right (fun v acc => fst kv +:+ ": " +:+ v +:+ crlf +:+ acc) acc (snd kv))
    EmptyString h.

(** What [multipart.Writer.CreatePart] writes: the boundary line (after a
    line break unless this is the first part), the header lines, a blank
    line. *)
Definition CreatePart (boundary : string) (lastpart : bool) (h : MIMEHeader) : bytes :=
  bytes_of_string
    ((if lastpart then crlf +:+ "--" else "--") +:+ boundary +:+ crlf
     +:+ headerLines h +:+ crlf).

(** What [multipart.Writer.Close] writes. *)
Definition closeBoundary (boundary : string) : bytes :=
  bytes_of_string (crlf +:+ "--" +:+ boundary +:+ "--" +:+ crlf).

(** The loop of [rangesMIMESize]: [w] is the counting writer, [encSize]
    the running sum of the range lengths. *)
Fixpoint mimeSizeLoop (boundary : string) (lastpart : bool) (ranges : list httpRange)
    (contentType : string) (contentSize : Z) (w encSize : Z) : Z * Z :=
  match ranges with
  | [] => (w, encSize)
  | ra :: rest =>
      let w := int64 (w + len (CreatePart boundary lastpart (mimeHeader ra contentType contentSize))) in
      let encSize := int64 (encSize + length ra) in
      mimeSizeLoop boundary true rest contentType contentSize w encSize
  end.

(** [rangesMIMESize] returns the number of bytes it takes to encode the
    provided ranges as a multipart response. *)
Definition rangesMIMESize (boundary : string) (ranges : list httpRange)
    (contentType : string) (contentSize : Z) : Z :=
  let '(w, encSize) := mimeSizeLoop boundary false ranges contentType contentSize 0 0 in
  let w := int64 (w + len (closeBoundary boundary)) in
  int64 (encSize + w).

(** How the goroutine that feeds the pipe ends: it wrote everything and
    closed the pipe, it closed the pipe with an error, or it panicked. *)
Inductive producerEnd := Finished | Failed | Crashed.

(** The body of that goroutine, run to its end: the bytes it hands to the
    pipe, in order.  [content[ra.start:size]] panics outside
    [0 <= start <= size]; [io.CopyN] copies at most [ra.length] bytes,
    nothing when that is not positive, and fails when the source ends
    first. *)
Fixpoint produce (boundary : string) (lastpart : bool) (ranges : list httpRange)
    (ctype : string) (content : bytes) (size : Z) (out : bytes) : bytes * producerEnd :=
  match ranges with
  | [] => ((out ++ closeBoundary boundary)%list, Finished)
  | ra :: rest =>
      let out := (out ++ CreatePart boundary lastpart (mimeHeader ra ctype size))%list in
      if (start ra <? 0) || (size <? start ra) then (out, Crashed)
      else
        let src := drop (Z.to_nat (start ra)) content in
        let copied := take (Z.to_nat (length ra)) src in
        let out := (out ++ copied)%list in
        if len copied <? length ra then (out, Failed)
        else produce boundary true rest ctype content size out
  end.

(* ===================================================================== *)
(** ** The request handler *)
(* ===================================================================== *)

(** How a call of the handler ends. *)
Inductive outcome :=
| Returned (w : ResponseWriter)
| Panicked (w : ResponseWriter) (what : string).

(** Content-type resolution.  The scratch buffer [buf] is a nil slice:
    [copy] into it copies nothing, and [buf[:n]] is out of range as soon as
    [n] is positive.  [None] is that panic. *)
Definition resolveContentType (env : Env) (w : ResponseWriter) (upath : string)
    (fc : filecontent) : option string :=
  match RespHeader w !! "Content-Type" with
  | None =>
      let ctype := TypeByExtension env (Ext upath) in
      if String.eqb ctype "" then
        let n := if 512 <=? len (content fc) then 512 else len (content fc) in
        let buf : bytes := [] in
        if len buf <? n then None
        else Some (DetectContentType env (take (Z.to_nat n) buf))
      else Some ctype
  | Some ctypes =>
      match ctypes with
      | c :: _ => Some c
      | [] => Some ""
      end
  end.

(** The last lines of the handler: headers, status, body. *)
Definition finish (w : ResponseWriter) (req : Request) (code sendSize : Z)
    (sendContent : bytes) : ResponseWriter :=
  let w := setHeader w "Accept-Ranges" "bytes" in
  let w :=
    if String.eqb (Header_Get (RespHeader w) "Content-Encoding") ""
    then setHeader w "Content-Length" (FormatInt sendSize) else w in
  let w := WriteHeader w code in
  if negb (String.eqb (Method req) "HEAD")
  then Write w (take (Z.to_nat sendSize) sendContent)
  else w.

(** Range resolution and emission.  The multi-range producer runs in a
    goroutine behind an unbuffered pipe from which the handler takes
    [sendSize] bytes; it reaches a panic of its own only when everything it
    wrote before was taken. *)
Definition serveRanges (env : Env) (w : ResponseWriter) (req : Request)
    (fc : filecontent) (ctype rangeReq : string) : outcome :=
  let size := len (content fc) in
  match parseRange rangeReq size with
  | Err e => Returned (http_Error w e StatusRequestedRangeNotSatisfiable)
  | Ok ranges =>
      let ranges := if size <? sumRangesSize ranges then [] else ranges in
      match ranges with
      | [] => Returned (finish w req StatusOK size (content fc))
      | [ra] =>
          let w := setHeader w "Content-Range" (contentRange ra size) in
          Returned (finish w req StatusPartialContent (length ra) (content fc))
      | _ :: _ :: _ =>
          if existsb (fun ra => size <? start ra) ranges
          then Panicked w "nil pointer dereference: err.Error()"
          else
            let sendSize := rangesMIMESize (randomBoundary env 0) ranges ctype size in
            let boundary := randomBoundary env 1 in
            let w := setHeader w "Content-Type" ("multipart/byteranges; boundary=" +:+ boundary) in
            let '(piped, ending) := produce boundary false ranges ctype (content fc) size [] in
            let w := finish w req StatusPartialContent sendSize piped in
            match ending with
            | Crashed =>
                if negb (String.eqb (Method req) "HEAD") && (len piped <=? sendSize)
                then Panicked w "slice bounds out of range"
                else Returned w
            | _ => Returned w
            end
      end
  end.

(** [ServeHTTP] from the call of [checkETag] on. *)
Definition serveChecked (env : Env) (rw : ResponseWriter) (req : Request)
    (upath : string) (fc : filecontent) : outcome :=
  let '(rw, rangeReq, done) := checkETag rw req in
  if done then Returned rw
  else
    match resolveContentType env rw upath fc with
    | None => Panicked rw "slice bounds out of range"
    | Some ctype => serveRanges env rw req fc ctype rangeReq
    end.

(** The key the handler looks up: the path less one leading slash. *)
Definition storeKey (req : Request) : string :=
  let upath := URLPath req in
  if HasPrefix upath "/" then drop_str 1 upath else upath.

(** [ServeHTTP]. *)
Definition ServeHTTP (env : Env) (za : ZipAssets) (rw : ResponseWriter) (req : Request)
    : outcome :=
  let upath := storeKey req in
  match files za !! upath with
  | None => Returned (http_NotFound rw)
  | Some l =>
      match heap za !! l with
      | None => Panicked rw "nil pointer dereference"
      | Some fc =>
          let '(rw, done) := checkLastModified env rw req (lastModified fc) in
          if done then Returned rw
          else serveChecked env rw req upath fc
      end
  end.

(* ===================================================================== *)
(** ** The archive loader *)
(* ===================================================================== *)

(** A member as [archive/zip] presents it: opening it may fail, and so may
    reading it to the end. *)
Record zipFile := mkZipFile {
  zName : string;
  zModTime : Z;
  zOpen : result (result bytes)
}.

Record tarHeader := mkTarHeader {
  tName : string;
  tModTime : Z;
  tIsDir : bool
}.

(** What a [tar.Reader] delivers: after each header the result of reading
    the member to its end ([ioutil.ReadAll]: what was read, and the error
    if any), then the end of the archive or an error. *)
Inductive tarStream :=
| tarEOF
| tarError (msg : string)
| tarEntry (hdr : tarHeader) (body : bytes) (err : option string) (rest : tarStream).

(** The file system and the readers of the Go library. *)
Record FileSystem := mkFS {
  zip_OpenReader : string -> result (list zipFile);
  os_Open : string -> result bytes;
  gzip_tar : bytes -> result tarStream;
  bzip2_tar : bytes -> tarStream;
  path_Dir : string -> string;
  path_Base : string -> string;
  path_Join : string -> string -> string
}.

(** The zero value of [filecontent]. *)
Definition zeroFile : filecontent := mkFile "" false 0 [].

Definition setCell (za : ZipAssets) (l : loc) (fc : filecontent) : ZipAssets :=
  mkZA (path za) (files za) (<[l := fc]> (heap za)).

Definition setFile (za : ZipAssets) (key : string) (l : loc) : ZipAssets :=
  mkZA (path za) (<[key := l]> (files za)) (heap za).

(** [var fc filecontent] whose address is taken: one cell for the whole
    call. *)
Definition newCell (za : ZipAssets) : loc * ZipAssets :=
  let l := fresh (dom (heap za)) in (l, setCell za l zeroFile).

Definition cell (za : ZipAssets) (l : loc) : filecontent :=
  default zeroFile (heap za !! l).

(** The loop of [openTar]; [fc] is the location of the variable [fc]. *)
Fixpoint openTarLoop (za : ZipAssets) (fc : loc) (tr : tarStream)
    : ZipAssets * option string :=
  match tr with
  | tarEOF => (za, None)
  | tarError e => (za, Some e)
  | tarEntry hdr body err rest =>
      let c := cell za fc in
      let za := setCell za fc (mkFile (name c) (isDir c) (lastModified c) body) in
      match err with
      | Some e => (za, Some e)
      | None =>
          let za := setCell za fc
                      (mkFile (tName hdr) (tIsDir hdr) (tModTime hdr) body) in
          let za := setFile za (tName hdr) fc in
          openTarLoop za fc rest
      end
  end.

Definition openTar (za : ZipAssets) (tr : tarStream) : ZipAssets * option string :=
  let '(fc, za) := newCell za in openTarLoop za fc tr.

(** deal with .tar.gz *)
Definition openTarGz (fs : FileSystem) (za : ZipAssets) : ZipAssets * option string :=
  match os_Open fs (path za) with
  | Err e => (za, Some e)
  | Ok f =>
      match gzip_tar fs f with
      | Err e => (za, Some e)
      | Ok tr => openTar za tr
      end
  end.

(** deal with .tar.bz2 *)
Definition openTarBz2 (fs : FileSystem) (za : ZipAssets) : ZipAssets * option string :=
  match os_Open fs (path za) with
  | Err e => (za, Some e)
  | Ok f => openTar za (bzip2_tar fs f)
  end.

(** The loop of [openZip] over [r.File]. *)
Fixpoint openZipLoop (za : ZipAssets) (fc : loc) (members : list zipFile)
    : ZipAssets * option string :=
  match members with
  | [] => (za, None)
  | f :: rest =>
      match zOpen f with
      | Err e => (za, Some e)
      | Ok (Err e) => (za, Some e)
      | Ok (Ok bytes) =>
          let c := cell za fc in
          let za := setCell za fc (mkFile (zName f) (isDir c) (zModTime f) bytes) in
          let za := setFile za (zName f) fc in
          openZipLoop za fc rest
      end
  end.

(** deal zip file *)
Definition openZip (fs : FileSystem) (za : ZipAssets) : ZipAssets * option string :=
  let '(fc, za) := newCell za in
  match zip_OpenReader fs (path za) with
  | Err e => (za, Some e)
  | Ok members => openZipLoop za fc members
  end.

(** [strings.SplitN(fn, ".", 2)[0]]: what comes before the first dot. *)
Fixpoint beforeDot (fn : string) : string :=
  match fn with
  | EmptyString => EmptyString
  | String a fn' => if Ascii.eqb a "." then EmptyString else String a (beforeDot fn')
  end.

Definition basename (fs : FileSystem) (pathname : string) : string :=
  let dir := path_Dir fs pathname in
  let fn := path_Base fs pathname in
  path_Join fs dir (beforeDot fn).

(** The handlers [NewZipAssets] can return. *)
Inductive handler :=
| NoHandler
| FileServer (dir : string)
| Archive (za : ZipAssets).

(** The variadic arguments, as far as the constructor looks at them. *)
Inductive arg :=
| BoolArg (b : bool)
| OtherArg.

(** open zip assets file *)
Definition NewZipAssets (fs : FileSystem) (pathname : string) (args : list arg)
    : handler * option string :=
  let debugging :=
    match args with
    | BoolArg true :: _ => true
    | _ => false
    end in
  if debugging then (FileServer (basename fs pathname), None)
  else
    let za := mkZA pathname ∅ ∅ in
    let lowerPath := ToLower pathname in
    let '(za, err) :=
      if HasSuffix lowerPath ".zip" then openZip fs za
      else if HasSuffix lowerPath ".tar.gz" then openTarGz fs za
      else if HasSuffix lowerPath ".tar.bz2" then openTarBz2 fs za
      else (za, None) in
    match err with
    | Some e => (FileServer (basename fs pathname), Some e)
    | None => (Archive za, None)
    end.

(* ===================================================================== *)
(** ** Quantities used to state the properties *)
(* ===================================================================== *)

(** The bytes of framing that precede the parts of the given ranges. *)
Fixpoint framing (boundary : string) (lastpart : bool) (ranges : list httpRange)
    (ctype : string) (size : Z) : Z :=
  match ranges with
  | [] => 0
  | ra :: rest =>
      len (CreatePart boundary lastpart (mimeHeader ra ctype size))
      + framing boundary true rest ctype size
  end.

(** The sum of the range lengths, not reduced to [int64]. *)
Fixpoint totalLength (ranges : list httpRange) : Z :=
  match ranges with
  | [] => 0
  | ra :: rest => length ra + totalLength rest
  end.

(** A range as the data model wants it. *)
Definition wellFormed (size : Z) (r : httpRange) : Prop :=
  0 <= start r /\ 0 <= length r /\ start r + length r <= size.

(** Every character of a string passes a test. *)
Fixpoint str_all (P : ascii -> bool) (s : string) : bool :=
  match s with
  | EmptyString => true
  | String a s' => P a && str_all P s'
  end.

Definition is_digit (a : ascii) : bool := (48 <=? code a) && (code a <=? 57).

(** An ASCII character that is not white space: no white-space rune starts
    or ends with it. *)
Definition plain (a : ascii) : bool := (code a <? 128) && negb (isSpace1 a).

(** The request gets as far as range resolution: the path is in the store
    with entry [fc], neither conditional check completes the request, and
    the content type resolves to [ctype]; [w] is the response and
    [rangeReq] the effective Range header at that point. *)
Definition reachesRanges (env : Env) (za : ZipAssets) (rw : ResponseWriter)
    (req : Request) (fc : filecontent) (w : ResponseWriter)
    (ctype rangeReq : string) : Prop :=
  lookupFile za (storeKey req) = Some fc
  /\ snd (checkLastModified env rw req (lastModified fc)) = false
  /\ checkETag (fst (checkLastModified env rw req (lastModified fc))) req
     = (w, rangeReq, false)
  /\ resolveContentType env w (storeKey req) fc = Some ctype.

(* ===================================================================== *)
(** ** A small installation, for the examples *)
(* ===================================================================== *)

Definition jan1 : string := "Thu, 01 Jan 2015 00:00:00 GMT".

(** 2015-01-01 00:00:00 UTC, in nanoseconds from the zero time. *)
Definition jan1_instant : Z := 63555667200 * second.

Definition exampleEnv : Env :=
  mkEnv
    (fun ext => if String.eqb ext ".txt" then "text/plain; charset=utf-8" else "")
    (fun _ => "application/octet-stream")
    (fun s => if String.eqb s jan1 then Some jan1_instant else None)
    (fun t => if t =? jan1_instant then jan1 else "")
    (fun _ => "a"%char).

Definition digits10 : bytes := bytes_of_string "0123456789".

(** A zip archive with the single member [f.txt]. *)
Definition oneFile : FileSystem :=
  mkFS
    (fun p => if String.eqb p "one.zip"
              then Ok [mkZipFile "f.txt" jan1_instant (Ok (Ok digits10))]
              else Err "open: no such file or directory")
    (fun _ => Err "open: no such file or directory")
    (fun _ => Err "gzip: invalid header")
    (fun _ => tarError "unexpected EOF")
    (fun p => ".") (fun p => p) (fun d f => f).

Definition emptyResponse : ResponseWriter := mkResponse ∅ None [].

Definition get (upath : string) (h : list (string * string)) : Request :=
  mkRequest "GET" upath (list_to_map (map (fun kv => (fst kv, [snd kv])) h)).

(** The store behind a constructed handler (empty when there is none). *)
Definition storeOf (r : handler * option string) : ZipAssets :=
  match r with
  | (Archive za, _) => za
  | _ => mkZA "" ∅ ∅
  end.

Definition oneFileStore : ZipAssets := storeOf (NewZipAssets oneFile "one.zip" []).

Definition hello : bytes := bytes_of_string "hello".

(** Three bytes that are not text. *)
Definition binary : bytes := [ascii_of_N 0; ascii_of_N 255; ascii_of_N 7].

Definition T1 : Z := jan1_instant.
Definition T2 : Z := jan1_instant + 86400 * second.

(** An archive with the members [a.txt] and [dir/b.bin], as [two.zip] and
    as [two.tar.gz]. *)
Definition twoFiles : FileSystem :=
  mkFS
    (fun p => if String.eqb p "two.zip"
              then Ok [mkZipFile "a.txt" T1 (Ok (Ok hello));
                       mkZipFile "dir/b.bin" T2 (Ok (Ok binary))]
              else Err "open: no such file or directory")
    (fun p => if String.eqb p "two.tar.gz" then Ok []
              else Err "open: no such file or directory")
    (fun _ => Ok (tarEntry (mkTarHeader "a.txt" T1 false) hello None
                 (tarEntry (mkTarHeader "dir/b.bin" T2 false) binary None tarEOF)))
    (fun _ => tarError "unexpected EOF")
    (fun p => ".") (fun p => p) (fun d f => f).

Definition twoFilesZip : ZipAssets := storeOf (NewZipAssets twoFiles "two.zip" []).

(* ===================================================================== *)
(** ** The first version of the package *)
(* ===================================================================== *)

(** The package as first written: the store maps a member name to its
    bytes, and the handler writes the bytes of the member asked for. *)
Module V0.

Record ZipAssets := mkZA {
  path : string;
  files : gmap string bytes
}.

(** The loop of [openTarGz] over the tar reader. *)
Fixpoint openTarLoop (za : ZipAssets) (tr : tarStream) : ZipAssets * option string :=
  match tr with
  | tarEOF => (za, None)
  | tarError e => (za, Some e)
  | tarEntry hdr body err rest =>
      match err with
      | Some e => (za, Some e)
      | None => openTarLoop (mkZA (path za) (<[tName hdr := body]> (files za))) rest
      end
  end.

Definition openTarGz (fs : FileSystem) (za : ZipAssets) : ZipAssets * option string :=
  match os_Open fs (path za) with
  | Err e => (za, Some e)
  | Ok f =>
      match gzip_tar fs f with
      | Err e => (za, Some e)
      | Ok tr => openTarLoop za tr
      end
  end.

(** Not written yet in this version: it reads nothing and reports no
    error. *)
Definition openTarBz2 (fs : FileSystem) (za : ZipAssets) : ZipAssets * option string :=
  (za, None).

(** The loop of [openZip] over [r.File]. *)
Fixpoint openZipLoop (za : ZipAssets) (members : list zipFile)
    : ZipAssets * option string :=
  match members with
  | [] => (za, None)
  | f :: rest =>
      match zOpen f with
      | Err e => (za, Some e)
      | Ok (Err e) => (za, Some e)
      | Ok (Ok data) =>
          openZipLoop (mkZA (path za) (<[zName f := data]> (files za))) rest
      end
  end.

Definition openZip (fs : FileSystem) (za : ZipAssets) : ZipAssets * option string :=
  match zip_OpenReader fs (path za) with
  | Err e => (za, Some e)
  | Ok members => openZipLoop za members
  end.

(** open zip assets file: the suffixes are tested without their dot, and
    the store is returned together with the error. *)
Definition NewZipAssets (fs : FileSystem) (pathname : string)
    : ZipAssets * option string :=
  let za := mkZA pathname ∅ in
  let lowerPath := ToLower pathname in
  if HasSuffix lowerPath "zip" then openZip fs za
  else if HasSuffix lowerPath "tar.gz" then openTarGz fs za
  else if HasSuffix lowerPath "tar.bz2" then openTarBz2 fs za
  else (za, None).

(** serveHttp interface *)
Definition ServeHTTP (za : ZipAssets) (rw : ResponseWriter) (req : Request)
    : ResponseWriter :=
  match files za !! storeKey req with
  | Some data => Write rw data
  | None => rw
  end.

End V0.



(** The member can be opened and read to its end. *)
Definition readable (f : zipFile) : Prop := exists data, zOpen f = Ok (Ok data).


(** A zip archive whose second member cannot be read to its end. *)
Definition brokenFiles : FileSystem :=
  mkFS
    (fun p => if String.eqb p "bad.zip"
              then Ok [mkZipFile "a.txt" T1 (Ok (Ok hello));
                       mkZipFile "b.txt" T2 (Ok (Err "unexpected EOF"));
                       mkZipFile "c.txt" T2 (Ok (Ok binary))]
              else Err "open: no such file or directory")
    (fun _ => Err "open: no such file or directory")
    (fun _ => Err "gzip: invalid header")
    (fun _ => tarError "unexpected EOF")
    (fun p => ".") (fun p => p) (fun d f => f).


(** The bytes of the content that a range names. *)
Definition slice (content : bytes) (ra : httpRange) : bytes :=
  take (Z.to_nat (length ra)) (drop (Z.to_nat (start ra)) content).

(** The parts of a multipart body, one after the other: for every range
    the boundary line and the two header lines, then the bytes the range
    names. *)
Fixpoint parts (boundary : string) (lastpart : bool) (ranges : list httpRange)
    (ctype : string) (content : bytes) : bytes :=
  match ranges with
  | [] => []
  | ra :: rest =>
      (CreatePart boundary lastpart (mimeHeader ra ctype (len content))
       ++ slice content ra ++ parts boundary true rest ctype content)%list
  end.


(* ===================================================================== *)
(** ** Facts about the machine integers *)
(* ===================================================================== *)

Lemma int64_id z : in_int64 z -> int64 z = z.
Proof.
  unfold in_int64, int64_min, int64_max, int64. intros H.
  rewrite Z.mod_small; lia.
Qed.

Lemma int64_range z : in_int64 (int64 z).
Proof.
  unfold in_int64, int64_min, int64_max, int64.
  pose proof (Z.mod_pos_bound (z + 2 ^ 63) (2 ^ 64)). lia.
Qed.

Lemma int64_add_l a b : int64 (int64 a + b) = int64 (a + b).
Proof.
  unfold int64.
  replace ((a + 2 ^ 63) mod 2 ^ 64 - 2 ^ 63 + b + 2 ^ 63)
    with ((a + 2 ^ 63) mod 2 ^ 64 + b) by lia.
  rewrite Zplus_mod_idemp_l.
  replace (a + 2 ^ 63 + b) with (a + b + 2 ^ 63) by lia. reflexivity.
Qed.

Lemma int64_add_r a b : int64 (a + int64 b) = int64 (a + b).
Proof.
  rewrite Z.add_comm, int64_add_l. now rewrite Z.add_comm.
Qed.

Lemma int64_sub_r a b : int64 (a - int64 b) = int64 (a - b).
Proof.
  unfold int64.
  replace (a - ((b + 2 ^ 63) mod 2 ^ 64 - 2 ^ 63) + 2 ^ 63)
    with ((a + 2 ^ 64) - (b + 2 ^ 63) mod 2 ^ 64) by lia.
  rewrite Zminus_mod_idemp_r.
  replace (a + 2 ^ 64 - (b + 2 ^ 63)) with (a - b + 2 ^ 63) by lia.
  reflexivity.
Qed.

Lemma int64_idem z : int64 (int64 z) = int64 z.
Proof. apply int64_id, int64_range. Qed.

(* ===================================================================== *)
(** ** The range parser *)
(* ===================================================================== *)

(** C5. The range parser on the six vectors of the specification:
    [bytes=0-4], [bytes=-5], [bytes=5-] and [bytes=0-0,2-2] against ten
    bytes give the ranges (0,5), (5,5), (5,5) and (0,1),(2,1); [foo=0-1]
    and [bytes=20-30] are errors. *)
Theorem parseRange_vectors :
  parseRange "bytes=0-4" 10 = Ok [mkRange 0 5]
  /\ parseRange "bytes=-5" 10 = Ok [mkRange 5 5]
  /\ parseRange "bytes=5-" 10 = Ok [mkRange 5 5]
  /\ parseRange "bytes=0-0,2-2" 10 = Ok [mkRange 0 1; mkRange 2 1]
  /\ parseRange "foo=0-1" 10 = Err "invalid range"
  /\ parseRange "bytes=20-30" 10 = Err "invalid range".
Proof. repeat split; vm_compute; reflexivity. Qed.

Lemma parse_digits_nonneg s : forall acc n,
  0 <= acc -> parse_digits s acc = Some n -> 0 <= n.
Proof.
  induction s as [|a s IH]; simpl; intros acc n Hacc H.
  - now inversion H; subst.
  - unfold digit_val in H.
    destruct ((48 <=? code a) && (code a <=? 57)) eqn:E; [|discriminate].
    apply andb_true_iff in E as [E1 E2].
    apply Z.leb_le in E1. eapply IH; [|exact H]. lia.
Qed.

Lemma ParseUint_range s n : ParseUint s = Some n -> 0 <= n < 2 ^ 64.
Proof.
  unfold ParseUint. destruct s as [|a s]; [discriminate|].
  destruct (parse_digits (String a s) 0) as [m|] eqn:E; [|discriminate].
  destruct (m <? 2 ^ 64) eqn:L; [|discriminate].
  intros [= <-]. apply Z.ltb_lt in L.
  split; [|exact L]. eapply parse_digits_nonneg; [|exact E]. lia.
Qed.

Lemma ParseInt_range s n : ParseInt s = Some n -> in_int64 n.
Proof.
  unfold ParseInt, in_int64, int64_min, int64_max.
  destruct s as [|a s]; [discriminate|].
  destruct (if Ascii.eqb a "+" then (false, s)
            else if Ascii.eqb a "-" then (true, s) else (false, String a s))
    as [neg body].
  destruct (ParseUint body) as [un|] eqn:E; [|discriminate].
  apply ParseUint_range in E.
  destruct neg; simpl.
  - destruct (2 ^ 63 <? un) eqn:L; [discriminate|].
    apply Z.ltb_ge in L. intros [= <-]. lia.
  - destruct (2 ^ 63 <=? un) eqn:L; [discriminate|].
    apply Z.leb_gt in L. intros [= <-]. lia.
Qed.

(** Every range the parser returns is well formed or has a negative
    length. *)
Lemma parseOne_bounds ra size r :
  0 <= size <= int64_max ->
  parseOne ra size = Ok r ->
  length r < 0 \/ wellFormed size r.
Proof.
  unfold parseOne, wellFormed, int64_max. intros Hsize.
  destruct (Index ra "-" <? 0); [discriminate|].
  set (st := TrimSpace _). set (en := TrimSpace _).
  destruct (String.eqb st "").
  - destruct (ParseInt en) as [i|] eqn:Ei; [|discriminate].
    apply ParseInt_range in Ei. unfold in_int64, int64_min, int64_max in Ei.
    intros [= <-]. simpl.
    set (i' := if size <? i then size else i).
    assert (Hi' : - 2 ^ 63 <= i' <= size).
    { unfold i'. destruct (size <? i) eqn:L; [lia|]. apply Z.ltb_ge in L. lia. }
    rewrite int64_sub_r.
    replace (size - (size - i')) with i' by lia.
    rewrite (int64_id i') by (unfold in_int64, int64_min, int64_max; lia).
    destruct (Z.lt_ge_cases i' 0) as [Hneg|Hpos]; [now left|right].
    rewrite int64_id by (unfold in_int64, int64_min, int64_max; lia). lia.
  - destruct (ParseInt st) as [i|] eqn:Ei; [|discriminate].
    destruct ((size <? i) || (i <? 0)) eqn:G; [discriminate|].
    apply orb_false_iff in G as [G1 G2].
    apply Z.ltb_ge in G1. apply Z.ltb_ge in G2.
    destruct (String.eqb en "").
    + intros [= <-]. simpl. right.
      rewrite int64_id by (unfold in_int64, int64_min, int64_max; lia). lia.
    + destruct (ParseInt en) as [j|] eqn:Ej; [|discriminate].
      apply ParseInt_range in Ej. unfold in_int64, int64_min, int64_max in Ej.
      destruct (j <? i) eqn:L; [discriminate|]. apply Z.ltb_ge in L.
      intros [= <-]. simpl. right.
      destruct (size <=? j) eqn:C.
      * apply Z.leb_le in C.
        rewrite (int64_id (size - 1)) by (unfold in_int64, int64_min, int64_max; lia).
        rewrite (int64_id (size - 1 - i)) by (unfold in_int64, int64_min, int64_max; lia).
        rewrite int64_id by (unfold in_int64, int64_min, int64_max; lia). lia.
      * apply Z.leb_gt in C.
        rewrite (int64_id (j - i)) by (unfold in_int64, int64_min, int64_max; lia).
        rewrite int64_id by (unfold in_int64, int64_min, int64_max; lia). lia.
Qed.

Lemma parseEntries_bounds pieces size : forall acc rs,
  0 <= size <= int64_max ->
  Forall (fun r => length r < 0 \/ wellFormed size r) acc ->
  parseEntries pieces size acc = Ok rs ->
  Forall (fun r => length r < 0 \/ wellFormed size r) rs.
Proof.
  induction pieces as [|p pieces IH]; simpl; intros acc rs Hsize Hacc H.
  - now inversion H; subst.
  - destruct (String.eqb (TrimSpace p) ""); [now apply (IH acc)|].
    destruct (parseOne (TrimSpace p) size) as [r|e] eqn:E; [|discriminate].
    apply (IH (acc ++ [r])%list); [assumption| |assumption].
    apply Forall_app; split; [assumption|].
    constructor; [|constructor]. eapply parseOne_bounds; eassumption.
Qed.

Lemma parseRange_bounds s size rs :
  0 <= size <= int64_max ->
  parseRange s size = Ok rs ->
  Forall (fun r => length r < 0 \/ wellFormed size r) rs.
Proof.
  unfold parseRange. intros Hsize.
  destruct (String.eqb s ""); [intros [= <-]; constructor|].
  destruct (negb (HasPrefix s "bytes=")); [discriminate|].
  apply parseEntries_bounds; [assumption|constructor].
Qed.

(** C6. The suffix form with a negative count is accepted: against ten
    bytes [bytes=--5] parses to the range that starts at 15 with length
    -5, which is not a byte interval of the resource. *)
Theorem parseRange_negative_suffix :
  parseRange "bytes=--5" 10 = Ok [mkRange 15 (-5)]
  /\ ~ wellFormed 10 (mkRange 15 (-5)).
Proof.
  split; [vm_compute; reflexivity|].
  unfold wellFormed; simpl. lia.
Qed.

(* ===================================================================== *)
(** ** The multipart size estimate *)
(* ===================================================================== *)

Lemma len_app {A} (l1 l2 : list A) : len (l1 ++ l2)%list = len l1 + len l2.
Proof. unfold len. rewrite length_app. lia. Qed.

Lemma len_nonneg {A} (l : list A) : 0 <= len l.
Proof. unfold len. lia. Qed.

Lemma bytes_of_string_app s1 s2 :
  bytes_of_string (s1 +:+ s2) = (bytes_of_string s1 ++ bytes_of_string s2)%list.
Proof.
  unfold bytes_of_string. induction s1 as [|a s1 IH]; simpl; [reflexivity|].
  now rewrite IH.
Qed.

Lemma len_bytes_of_string s : len (bytes_of_string s) = Z.of_nat (String.length s).
Proof.
  unfold len, bytes_of_string. f_equal.
  induction s as [|a s IH]; simpl; [reflexivity|]. now rewrite IH.
Qed.

Lemma CreatePart_len b1 b2 lastpart h :
  String.length b1 = String.length b2 ->
  len (CreatePart b1 lastpart h) = len (CreatePart b2 lastpart h).
Proof.
  intros Hb. unfold CreatePart.
  rewrite !bytes_of_string_app, !len_app, !len_bytes_of_string, Hb. reflexivity.
Qed.

Lemma closeBoundary_len b1 b2 :
  String.length b1 = String.length b2 ->
  len (closeBoundary b1) = len (closeBoundary b2).
Proof.
  intros Hb. unfold closeBoundary.
  rewrite !bytes_of_string_app, !len_app, !len_bytes_of_string, Hb. reflexivity.
Qed.

Lemma framing_boundary b1 b2 ranges ctype size : forall lastpart,
  String.length b1 = String.length b2 ->
  framing b1 lastpart ranges ctype size = framing b2 lastpart ranges ctype size.
Proof.
  induction ranges as [|ra rest IH]; simpl; intros lastpart Hb; [reflexivity|].
  rewrite (CreatePart_len b1 b2) by assumption. now rewrite IH.
Qed.

Lemma hex_length l : String.length (hex l) = (2 * List.length l)%nat.
Proof. induction l as [|a l IH]; simpl; [reflexivity|]. rewrite IH. lia. Qed.

(** Every boundary is sixty characters long. *)
Lemma randomBoundary_length env k : String.length (randomBoundary env k) = 60%nat.
Proof.
  unfold randomBoundary. now rewrite hex_length, length_map, length_seq.
Qed.

Lemma int64_congr a a' b : int64 a = int64 a' -> int64 (a + b) = int64 (a' + b).
Proof. intros H. now rewrite <- (int64_add_l a), H, int64_add_l. Qed.

(** The estimator's loop adds the framing to the counting writer and the
    lengths to the running sum, in [int64]. *)
Lemma mimeSizeLoop_spec boundary ranges ctype size : forall lastpart w e,
  let r := mimeSizeLoop boundary lastpart ranges ctype size w e in
  int64 (fst r) = int64 (w + framing boundary lastpart ranges ctype size)
  /\ int64 (snd r) = int64 (e + totalLength ranges).
Proof.
  induction ranges as [|ra rest IH]; intros lastpart w e; simpl.
  - now rewrite !Z.add_0_r.
  - destruct (IH true
      (int64 (w + len (CreatePart boundary lastpart (mimeHeader ra ctype size))))
      (int64 (e + length ra))) as [H1 H2].
    split.
    + rewrite H1, int64_add_l. f_equal. lia.
    + rewrite H2, int64_add_l. f_equal. lia.
Qed.

Lemma rangesMIMESize_spec boundary ranges ctype size :
  rangesMIMESize boundary ranges ctype size
  = int64 (framing boundary false ranges ctype size + totalLength ranges
           + len (closeBoundary boundary)).
Proof.
  unfold rangesMIMESize.
  pose proof (mimeSizeLoop_spec boundary ranges ctype size false 0 0) as H.
  destruct (mimeSizeLoop boundary false ranges ctype size 0 0) as [w e].
  cbv zeta in H. destruct H as [Hw He]. cbn [fst snd] in Hw, He.
  rewrite int64_add_r, (int64_congr _ _ _ He).
  replace (0 + totalLength ranges + (w + len (closeBoundary boundary)))
    with (w + (totalLength ranges + len (closeBoundary boundary))) by lia.
  rewrite (int64_congr _ _ _ Hw). f_equal. lia.
Qed.

Lemma copy_exact (content : bytes) (ra : httpRange) :
  wellFormed (len content) ra ->
  len (take (Z.to_nat (length ra)) (drop (Z.to_nat (start ra)) content)) = length ra.
Proof.
  unfold wellFormed, len. intros (Hs & Hl & Hb).
  rewrite length_take, length_drop. lia.
Qed.

(** On well-formed ranges the producer finishes, having written the
    framing, the bytes of every range and the closing boundary. *)
Lemma produce_spec boundary ctype (content : bytes) ranges : forall lastpart out,
  Forall (wellFormed (len content)) ranges ->
  let r := produce boundary lastpart ranges ctype content (len content) out in
  snd r = Finished
  /\ len (fst r) = len out + framing boundary lastpart ranges ctype (len content)
                   + totalLength ranges + len (closeBoundary boundary).
Proof.
  induction ranges as [|ra rest IH]; intros lastpart out Hall; simpl.
  - split; [reflexivity|]. rewrite len_app. lia.
  - inversion Hall as [|? ? Hra Hrest]; subst.
    pose proof (copy_exact content ra Hra) as Hcopy.
    destruct Hra as (Hs & Hl & Hb).
    replace ((start ra <? 0) || (len content <? start ra)) with false
      by (symmetry; apply orb_false_iff; split; apply Z.ltb_ge; lia).
    rewrite Hcopy, Z.ltb_irrefl.
    destruct (IH true
      ((out ++ CreatePart boundary lastpart (mimeHeader ra ctype (len content)))
         ++ take (Z.to_nat (length ra)) (drop (Z.to_nat (start ra)) content))%list
      Hrest) as [H1 H2].
    split; [exact H1|]. rewrite H2, !len_app, Hcopy. lia.
Qed.




(* ===================================================================== *)
(** ** Decimal numbers and trimming *)
(* ===================================================================== *)

Lemma code_range a : 0 <= code a < 256.
Proof.
  unfold code. pose proof (N_ascii_bounded a). lia.
Qed.

Lemma code_digit_char d : 0 <= d < 10 -> code (digit_char d) = 48 + d.
Proof.
  intros H. unfold code, digit_char.
  rewrite N_ascii_embedding by lia. lia.
Qed.

Lemma is_digit_digit_char d : 0 <= d < 10 -> is_digit (digit_char d) = true.
Proof.
  intros H. unfold is_digit. rewrite code_digit_char by assumption.
  apply andb_true_iff; split; apply Z.leb_le; lia.
Qed.

Lemma digit_val_digit_char d : 0 <= d < 10 -> digit_val (digit_char d) = Some d.
Proof.
  intros H. unfold digit_val. rewrite code_digit_char by assumption.
  replace ((48 <=? 48 + d) && (48 + d <=? 57)) with true
    by (symmetry; apply andb_true_iff; split; apply Z.leb_le; lia).
  f_equal. lia.
Qed.

Lemma str_all_app P s t : str_all P (s +:+ t) = str_all P s && str_all P t.
Proof.
  induction s as [|a s IH]; simpl; [reflexivity|]. now rewrite IH, andb_assoc.
Qed.

Lemma str_all_impl (P Q : ascii -> bool) s :
  (forall a, P a = true -> Q a = true) -> str_all P s = true -> str_all Q s = true.
Proof.
  intros HPQ. induction s as [|a s IH]; simpl; [reflexivity|].
  intros H. apply andb_true_iff in H as [H1 H2].
  apply andb_true_iff; split; auto.
Qed.

Lemma digits_all_digit fuel : forall n, 0 <= n -> str_all is_digit (digits fuel n) = true.
Proof.
  induction fuel as [|fuel IH]; intros n Hn; simpl; [reflexivity|].
  destruct (n <? 10) eqn:L.
  - apply Z.ltb_lt in L. simpl. rewrite is_digit_digit_char by lia. reflexivity.
  - apply Z.ltb_ge in L. rewrite str_all_app, IH by (apply Z.div_pos; lia).
    simpl. rewrite is_digit_digit_char; [reflexivity|].
    apply Z.mod_pos_bound. lia.
Qed.

Lemma digits_nonempty fuel n : digits (S fuel) n <> EmptyString.
Proof.
  simpl. destruct (n <? 10); [discriminate|].
  destruct (digits fuel (n / 10)); discriminate.
Qed.

Lemma parse_digits_snoc s c : forall acc,
  parse_digits (s +:+ String c EmptyString) acc
  = match parse_digits s acc with
    | Some v => match digit_val c with Some d => Some (v * 10 + d) | None => None end
    | None => None
    end.
Proof.
  induction s as [|a s IH]; intros acc; simpl.
  - destruct (digit_val c); reflexivity.
  - destruct (digit_val a); [apply IH|reflexivity].
Qed.

(** Parsing the digits of a number gives the number back. *)
Lemma parse_digits_digits fuel : forall n,
  0 <= n < 10 ^ Z.of_nat fuel -> parse_digits (digits fuel n) 0 = Some n.
Proof.
  induction fuel as [|fuel IH]; intros n Hn.
  - simpl in Hn. assert (n = 0) by lia. subst. reflexivity.
  - rewrite Nat2Z.inj_succ, Z.pow_succ_r in Hn by lia.
    simpl. destruct (n <? 10) eqn:L.
    + apply Z.ltb_lt in L. simpl. rewrite digit_val_digit_char by lia. reflexivity.
    + apply Z.ltb_ge in L. rewrite parse_digits_snoc, IH.
      * rewrite digit_val_digit_char by (apply Z.mod_pos_bound; lia).
        f_equal. pose proof (Z.div_mod n 10). lia.
      * split; [apply Z.div_pos; lia|].
        apply Z.div_lt_upper_bound; lia.
Qed.

Lemma str_all_head P s :
  str_all P s = true -> s <> EmptyString ->
  exists a r, s = String a r /\ P a = true.
Proof.
  destruct s as [|a r]; [congruence|]. simpl. intros H _.
  apply andb_true_iff in H as [H _]. eauto.
Qed.

Lemma str_all_last P s :
  str_all P s = true -> s <> EmptyString ->
  exists t z, s = t +:+ String z EmptyString /\ P z = true.
Proof.
  induction s as [|a s IH]; [congruence|]. simpl. intros H _.
  apply andb_true_iff in H as [Ha Hs].
  destruct s as [|b s'].
  - exists EmptyString, a. split; [reflexivity|assumption].
  - destruct (IH Hs ltac:(discriminate)) as (t & z & Et & Hz).
    exists (String a t), z. split; [|assumption]. rewrite Et. reflexivity.
Qed.

Lemma str_app_snoc r a acc :
  (r +:+ String a EmptyString) +:+ acc = r +:+ String a acc.
Proof.
  induction r as [|b r IH]; [reflexivity|].
  change (String b ((r +:+ String a EmptyString) +:+ acc) = String b (r +:+ String a acc)).
  now rewrite IH.
Qed.

Lemma string_rev_acc_app s : forall acc,
  string_rev_acc s acc = string_rev s +:+ acc.
Proof.
  unfold string_rev. induction s as [|a s IH]; intros acc; [reflexivity|].
  cbn [string_rev_acc].
  rewrite (IH (String a acc)), (IH (String a EmptyString)).
  now rewrite str_app_snoc.
Qed.

Lemma string_rev_acc_snoc s z : forall acc,
  string_rev_acc (s +:+ String z EmptyString) acc = String z (string_rev_acc s acc).
Proof.
  induction s as [|a s IH]; intros acc; [reflexivity|].
  change (string_rev_acc (s +:+ String z EmptyString) (String a acc)
          = String z (string_rev_acc s (String a acc))).
  apply IH.
Qed.

Lemma string_rev_snoc s z :
  string_rev (s +:+ String z EmptyString) = String z (string_rev s).
Proof. apply string_rev_acc_snoc. Qed.

Lemma string_rev_cons a s :
  string_rev (String a s) = string_rev s +:+ String a EmptyString.
Proof. unfold string_rev at 1. simpl. apply string_rev_acc_app. Qed.

Lemma string_rev_involutive s : string_rev (string_rev s) = s.
Proof.
  induction s as [|a s IH]; [reflexivity|].
  now rewrite string_rev_cons, string_rev_snoc, IH.
Qed.

Lemma plain_not_space a : plain a = true -> isSpace1 a = false /\ code a < 128.
Proof.
  unfold plain. intros H. apply andb_true_iff in H as [H1 H2].
  apply Z.ltb_lt in H1. apply negb_true_iff in H2. auto.
Qed.

Lemma trimLeftSpace_plain a r :
  plain a = true -> trimLeftSpace (String a r) = String a r.
Proof.
  intros H. apply plain_not_space in H as [H1 H2]. simpl. rewrite H1.
  destruct r as [|b r2]; [reflexivity|].
  assert (E2 : isSpace2 a b = false).
  { unfold isSpace2. replace (code a =? 194) with false; [reflexivity|].
    symmetry; apply Z.eqb_neq; lia. }
  rewrite E2. destruct r2 as [|c r3]; [reflexivity|].
  assert (E3 : isSpace3 a b c = false).
  { unfold isSpace3.
    replace (code a =? 225) with false by (symmetry; apply Z.eqb_neq; lia).
    replace (code a =? 226) with false by (symmetry; apply Z.eqb_neq; lia).
    replace (code a =? 227) with false by (symmetry; apply Z.eqb_neq; lia).
    reflexivity. }
  now rewrite E3.
Qed.

Lemma trimLeftSpaceRev_plain a r :
  plain a = true -> trimLeftSpaceRev (String a r) = String a r.
Proof.
  intros H. apply plain_not_space in H as [H1 H2]. simpl. rewrite H1.
  destruct r as [|b r2]; [reflexivity|].
  assert (E2 : isSpace2 b a = false).
  { unfold isSpace2.
    replace (code a =? 133) with false by (symmetry; apply Z.eqb_neq; lia).
    replace (code a =? 160) with false by (symmetry; apply Z.eqb_neq; lia).
    apply andb_false_r. }
  rewrite E2. destruct r2 as [|c r3]; [reflexivity|].
  assert (E3 : isSpace3 c b a = false).
  { unfold isSpace3.
    replace (code a =? 128) with false by (symmetry; apply Z.eqb_neq; lia).
    replace (code a =? 168) with false by (symmetry; apply Z.eqb_neq; lia).
    replace (code a =? 169) with false by (symmetry; apply Z.eqb_neq; lia).
    replace (code a =? 175) with false by (symmetry; apply Z.eqb_neq; lia).
    replace (code a =? 159) with false by (symmetry; apply Z.eqb_neq; lia).
    replace (128 <=? code a) with false by (symmetry; apply Z.leb_gt; lia).
    cbv zeta. rewrite !andb_false_r. reflexivity. }
  now rewrite E3.
Qed.

(** Text that begins and ends with plain characters is left alone. *)
Lemma TrimSpace_plain s a r t z :
  s = String a r -> s = t +:+ String z EmptyString ->
  plain a = true -> plain z = true -> TrimSpace s = s.
Proof.
  intros Ea Ez Ha Hz. unfold TrimSpace.
  rewrite Ea, trimLeftSpace_plain by assumption. rewrite <- Ea, Ez.
  rewrite string_rev_snoc, trimLeftSpaceRev_plain by assumption.
  now rewrite <- string_rev_snoc, string_rev_involutive.
Qed.

Lemma is_digit_plain a : is_digit a = true -> plain a = true.
Proof.
  unfold is_digit, plain, isSpace1. intros H.
  apply andb_true_iff in H as [H1 H2]. apply Z.leb_le in H1. apply Z.leb_le in H2.
  apply andb_true_iff; split; [apply Z.ltb_lt; lia|].
  apply negb_true_iff. cbv zeta.
  replace (code a <=? 13) with false by (symmetry; apply Z.leb_gt; lia).
  replace (code a =? 32) with false by (symmetry; apply Z.eqb_neq; lia).
  now rewrite andb_false_r.
Qed.

Lemma is_digit_neq a (c : ascii) :
  is_digit a = true -> is_digit c = false -> Ascii.eqb a c = false.
Proof.
  intros Ha Hc. destruct (Ascii.eqb_spec a c); [subst; congruence|reflexivity].
Qed.

Lemma TrimSpace_digits s :
  str_all is_digit s = true -> s <> EmptyString -> TrimSpace s = s.
Proof.
  intros H Hne.
  destruct (str_all_head _ _ H Hne) as (a & r & Ea & Ha).
  destruct (str_all_last _ _ H Hne) as (t & z & Ez & Hz).
  eapply TrimSpace_plain; eauto using is_digit_plain.
Qed.

Lemma TrimSpace_digits_dash s :
  str_all is_digit s = true -> s <> EmptyString ->
  TrimSpace (s +:+ "-") = s +:+ "-".
Proof.
  intros H Hne.
  destruct (str_all_head _ _ H Hne) as (a & r & Ea & Ha).
  eapply (TrimSpace_plain _ a (r +:+ "-") s "-"%char);
    [now rewrite Ea|reflexivity|now apply is_digit_plain|reflexivity].
Qed.

Lemma Index_digits s (sep : ascii) rest :
  is_digit sep = false -> str_all is_digit s = true ->
  Index (s +:+ String sep rest) sep = Z.of_nat (String.length s).
Proof.
  intros Hsep. induction s as [|a s IH]; simpl.
  - now rewrite Ascii.eqb_refl.
  - intros H. apply andb_true_iff in H as [Ha Hs].
    rewrite (is_digit_neq a sep Ha Hsep), (IH Hs).
    destruct (Z.of_nat (String.length s) <? 0) eqn:L; [apply Z.ltb_lt in L|]; lia.
Qed.

Lemma take_str_app s t : take_str (String.length s) (s +:+ t) = s.
Proof. induction s as [|a s IH]; simpl; [now destruct t|]. now rewrite IH. Qed.

Lemma drop_str_app s t : drop_str (String.length s) (s +:+ t) = t.
Proof. induction s as [|a s IH]; simpl; [reflexivity|]. exact IH. Qed.

Lemma Split_none s (sep : ascii) :
  str_all (fun a => negb (Ascii.eqb a sep)) s = true -> Split s sep = [s].
Proof.
  induction s as [|a s IH]; simpl; [reflexivity|].
  intros H. apply andb_true_iff in H as [Ha Hs].
  apply negb_true_iff in Ha. now rewrite Ha, (IH Hs).
Qed.

Lemma ParseInt_digits fuel n :
  0 <= n < 10 ^ Z.of_nat (S fuel) -> n <= int64_max ->
  ParseInt (digits (S fuel) n) = Some n.
Proof.
  intros Hn Hmax. unfold int64_max in Hmax.
  pose proof (digits_all_digit (S fuel) n ltac:(lia)) as Hall.
  pose proof (parse_digits_digits (S fuel) n Hn) as Hparse.
  destruct (str_all_head _ _ Hall (digits_nonempty fuel n)) as (a & r & Ea & Ha).
  unfold ParseInt. rewrite Ea in *.
  rewrite (is_digit_neq a "+"%char Ha eq_refl), (is_digit_neq a "-"%char Ha eq_refl).
  unfold ParseUint. rewrite Hparse.
  replace (n <? 2 ^ 64) with true by (symmetry; apply Z.ltb_lt; lia).
  simpl. replace (2 ^ 63 <=? n) with false by (symmetry; apply Z.leb_gt; lia).
  reflexivity.
Qed.

Lemma HasPrefix_nil s : HasPrefix s EmptyString = true.
Proof. now destruct s. Qed.


(** The suffix form with a count that is not negative: [bytes=-<n>] gives
    the last [min n size] bytes. *)
Lemma parseRange_suffix n size :
  0 <= n <= int64_max -> 0 <= size <= int64_max ->
  parseRange ("bytes=-" +:+ FormatInt n) size
  = Ok [mkRange (size - Z.min n size) (size - (size - Z.min n size))].
Proof.
  intros Hn Hsize. unfold int64_max in Hn, Hsize.
  unfold FormatInt. replace (n <? 0) with false by (symmetry; apply Z.ltb_ge; lia).
  pose proof (digits_all_digit 20 n ltac:(lia)) as Hall.
  pose proof (digits_nonempty 19 n) as Hne.
  assert (Hparse : ParseInt (digits 20 n) = Some n).
  { apply ParseInt_digits; unfold int64_max; [|lia].
    change (10 ^ Z.of_nat 20) with 100000000000000000000. lia. }
  set (d := digits 20 n) in *.
  unfold parseRange.
  change ("bytes=-" +:+ d) with
    (String "b" (String "y" (String "t" (String "e" (String "s" (String "="
       (String "-" d))))))).
  cbn [String.eqb Ascii.eqb HasPrefix drop_str negb Bool.eqb].
  rewrite ?HasPrefix_nil. cbn [negb].
  rewrite Split_none.
  2:{ simpl. rewrite (str_all_impl is_digit _ d); [reflexivity| |assumption].
      intros a Ha. now rewrite (is_digit_neq a ","%char Ha eq_refl). }
  cbn [parseEntries].
  assert (Htrim : TrimSpace (String "-" d) = String "-" d).
  { destruct (str_all_last _ _ Hall Hne) as (t & z & Ez & Hz).
    eapply (TrimSpace_plain _ "-"%char d (String "-" t) z);
      [reflexivity|now rewrite Ez|reflexivity|now apply is_digit_plain]. }
  rewrite Htrim. cbn [String.eqb Ascii.eqb Bool.eqb].
  unfold parseOne. cbn [Index Ascii.eqb Bool.eqb Z.ltb Z.compare Z.to_nat take_str].
  change (TrimSpace "") with "". cbn [String.eqb].
  change (Z.to_nat (0 + 1)) with 1%nat. cbn [drop_str].
  rewrite (TrimSpace_digits d Hall Hne), Hparse.
  assert (Hmin : (if size <? n then size else n) = Z.min n size).
  { destruct (size <? n) eqn:L; [apply Z.ltb_lt in L|apply Z.ltb_ge in L]; lia. }
  rewrite Hmin.
  rewrite (int64_id (size - Z.min n size))
    by (unfold in_int64, int64_min, int64_max; lia).
  rewrite int64_id by (unfold in_int64, int64_min, int64_max; lia).
  reflexivity.
Qed.

(* ===================================================================== *)
(** ** Headers and the end of the handler *)
(* ===================================================================== *)

Lemma Header_Get_Set h key value : Header_Get (Header_Set h key value) key = value.
Proof. unfold Header_Get, Header_Set. now rewrite lookup_insert_eq. Qed.

Lemma Header_Get_Set_ne h key key' value :
  CanonicalMIMEHeaderKey key <> CanonicalMIMEHeaderKey key' ->
  Header_Get (Header_Set h key value) key' = Header_Get h key'.
Proof.
  intros H. unfold Header_Get, Header_Set. now rewrite lookup_insert_ne.
Qed.

Lemma Header_Get_delete_ne (h : Header) key key' :
  key <> CanonicalMIMEHeaderKey key' ->
  Header_Get (delete key h) key' = Header_Get h key'.
Proof.
  intros H. unfold Header_Get. now rewrite lookup_delete_ne.
Qed.

Ltac keys_differ := vm_compute; congruence.

(** What [finish] leaves in the response when no status was written before
    and the response carries no Content-Encoding. *)
Lemma finish_spec w req code sendSize sendContent :
  Status w = None ->
  Header_Get (RespHeader w) "Content-Encoding" = "" ->
  let w' := finish w req code sendSize sendContent in
  Status w' = Some code
  /\ Header_Get (RespHeader w') "Content-Length" = FormatInt sendSize
  /\ Header_Get (RespHeader w') "Accept-Ranges" = "bytes"
  /\ (forall key,
        CanonicalMIMEHeaderKey key <> "Content-Length" ->
        CanonicalMIMEHeaderKey key <> "Accept-Ranges" ->
        Header_Get (RespHeader w') key = Header_Get (RespHeader w) key)
  /\ Body w' = (Body w ++ if String.eqb (Method req) "HEAD" then []
                          else take (Z.to_nat sendSize) sendContent)%list.
Proof.
  intros Hst Henc. unfold finish.
  replace (Header_Get (RespHeader (setHeader w "Accept-Ranges" "bytes")) "Content-Encoding")
    with "" by (simpl; rewrite Header_Get_Set_ne by keys_differ; now rewrite Henc).
  cbn [String.eqb].
  unfold WriteHeader. cbn [Status setHeader RespHeader Body]. rewrite Hst.
  destruct (String.eqb (Method req) "HEAD"); cbn [negb];
    unfold Write, WriteHeader; cbn [Status RespHeader Body];
    refine (conj _ (conj _ (conj _ (conj _ _))));
    try reflexivity;
    try apply Header_Get_Set;
    try (rewrite Header_Get_Set_ne by keys_differ; apply Header_Get_Set);
    try (intros key H1 H2; rewrite !Header_Get_Set_ne; auto);
    try now rewrite app_nil_r.
Qed.

Lemma sumRangesSize_single ra : in_int64 (length ra) -> sumRangesSize [ra] = length ra.
Proof. intros H. unfold sumRangesSize. simpl. now apply int64_id. Qed.

(** A request that gets as far as range resolution is answered by
    [serveRanges]. *)
Lemma ServeHTTP_reaches env za rw req fc w ctype rangeReq :
  reachesRanges env za rw req fc w ctype rangeReq ->
  ServeHTTP env za rw req = serveRanges env w req fc ctype rangeReq.
Proof.
  unfold reachesRanges, lookupFile, ServeHTTP. intros (Hlook & Hlm & Het & Hct).
  destruct (files za !! storeKey req) as [l|]; [|discriminate].
  rewrite Hlook.
  destruct (checkLastModified env rw req (lastModified fc)) as [w1 done].
  simpl in Hlm, Het. subst done. unfold serveChecked. now rewrite Het, Hct.
Qed.

(** One range within the resource: status 206, the Content-Range of the
    range, and as body the first [length] bytes of the content. *)
Lemma serveRanges_single env w req fc ctype rangeReq ra :
  parseRange rangeReq (len (content fc)) = Ok [ra] ->
  in_int64 (length ra) -> length ra <= len (content fc) ->
  serveRanges env w req fc ctype rangeReq
  = Returned (finish (setHeader w "Content-Range" (contentRange ra (len (content fc))))
                req StatusPartialContent (length ra) (content fc)).
Proof.
  intros Hparse Hin Hle. unfold serveRanges. rewrite Hparse.
  rewrite sumRangesSize_single by assumption.
  replace (len (content fc) <? length ra) with false
    by (symmetry; apply Z.ltb_ge; lia).
  reflexivity.
Qed.

(** The conditional checks leave status and body alone, and the headers
    but for Last-Modified, when they do not complete the request. *)
Lemma checkLastModified_continue env rw req modtime :
  snd (checkLastModified env rw req modtime) = false ->
  let w := fst (checkLastModified env rw req modtime) in
  Status w = Status rw /\ Body w = Body rw
  /\ forall key, CanonicalMIMEHeaderKey key <> "Last-Modified" ->
       Header_Get (RespHeader w) key = Header_Get (RespHeader rw) key.
Proof.
  unfold checkLastModified.
  destruct (modtime =? 0); [simpl; auto|].
  destruct (ParseTime env _) as [t|].
  - destruct (modtime <? t + 1 * second); [discriminate|]. simpl.
    intros _. refine (conj eq_refl (conj eq_refl _)).
    intros key H. now rewrite Header_Get_Set_ne.
  - simpl. intros _. refine (conj eq_refl (conj eq_refl _)).
    intros key H. now rewrite Header_Get_Set_ne.
Qed.

Lemma checkETag_continue rw req w rangeReq :
  checkETag rw req = (w, rangeReq, false) -> w = rw.
Proof.
  unfold checkETag.
  repeat match goal with
  | |- context [if ?b then _ else _] => destruct b
  end; congruence.
Qed.

(* ===================================================================== *)
(** ** Single ranges *)
(* ===================================================================== *)

(** The response to a single range within the resource, for a request
    that is not HEAD and a response without Content-Encoding: the body is
    the first [length] bytes of the content, wherever the range starts. *)
Lemma single_range_response env w req fc ctype rangeReq ra :
  parseRange rangeReq (len (content fc)) = Ok [ra] ->
  in_int64 (length ra) -> length ra <= len (content fc) ->
  Status w = None -> Header_Get (RespHeader w) "Content-Encoding" = "" ->
  String.eqb (Method req) "HEAD" = false ->
  exists w',
    serveRanges env w req fc ctype rangeReq = Returned w'
    /\ Status w' = Some StatusPartialContent
    /\ Header_Get (RespHeader w') "Content-Range" = contentRange ra (len (content fc))
    /\ Header_Get (RespHeader w') "Content-Length" = FormatInt (length ra)
    /\ Body w' = (Body w ++ take (Z.to_nat (length ra)) (content fc))%list.
Proof.
  intros Hparse Hin Hle Hst Henc Hm.
  rewrite (serveRanges_single _ _ _ _ _ _ _ Hparse Hin Hle).
  eexists; split; [reflexivity|].
  set (w1 := setHeader w "Content-Range" _).
  destruct (finish_spec w1 req StatusPartialContent (length ra) (content fc))
    as (H1 & H2 & _ & H4 & H5).
  - exact Hst.
  - unfold w1. simpl. now rewrite Header_Get_Set_ne by keys_differ.
  - rewrite Hm in H5. repeat split; try assumption.
    rewrite H4 by keys_differ. unfold w1. simpl. apply Header_Get_Set.
Qed.

(** A range that starts at 0 is served as asked: [bytes=0-3] of the ten
    bytes gives 206, [bytes 0-3/10], length 4 and the first four bytes. *)
Example single_range_first_four :
  exists w,
    ServeHTTP exampleEnv oneFileStore emptyResponse (get "/f.txt" [("Range", "bytes=0-3")])
    = Returned w
    /\ Status w = Some StatusPartialContent
    /\ Header_Get (RespHeader w) "Content-Range" = "bytes 0-3/10"
    /\ Header_Get (RespHeader w) "Content-Length" = "4"
    /\ Body w = take 4 digits10.
Proof.
  eexists. split; [vm_compute; reflexivity|].
  vm_compute. repeat split; congruence.
Qed.

(** C2. A GET of [f.txt] (the ten bytes [0123456789]) with
    [Range: bytes=5-8] is answered 206 with [Content-Range: bytes 5-8/10]
    and [Content-Length: 4], but the body is [0123], the first four bytes
    of the content, and not [5678]. *)
Theorem single_range_body_from_zero :
  let req := get "/f.txt" [("Range", "bytes=5-8")] in
  lookupFile oneFileStore "f.txt" = Some (mkFile "f.txt" false jan1_instant digits10)
  /\ exists w,
      ServeHTTP exampleEnv oneFileStore emptyResponse req = Returned w
      /\ Status w = Some StatusPartialContent
      /\ Header_Get (RespHeader w) "Content-Range" = "bytes 5-8/10"
      /\ Header_Get (RespHeader w) "Content-Length" = "4"
      /\ Body w = bytes_of_string "0123"
      /\ Body w <> take 4 (drop 5 digits10).
Proof.
  split; [vm_compute; reflexivity|].
  eexists. split; [vm_compute; reflexivity|].
  vm_compute. repeat split; congruence.
Qed.




(* ===================================================================== *)
(** ** Panics of the handler *)
(* ===================================================================== *)

(** Sniffing panics on every non-empty resource: the scratch buffer has no
    capacity. *)
Lemma sniff_panics env w upath fc :
  RespHeader w !! "Content-Type" = None ->
  TypeByExtension env (Ext upath) = "" ->
  content fc <> [] ->
  resolveContentType env w upath fc = None.
Proof.
  intros Hct Hext Hne. unfold resolveContentType. rewrite Hct, Hext.
  cbn [String.eqb].
  assert (0 < len (content fc)).
  { unfold len. destruct (content fc); [congruence|simpl; lia]. }
  destruct (512 <=? len (content fc)); [reflexivity|].
  replace (len [] <? len (content fc)) with true; [reflexivity|].
  symmetry. apply Z.ltb_lt. unfold len at 1. simpl. lia.
Qed.

(** C4. Two requests on which the handler panics.  A GET of a member whose
    extension has no MIME type and whose content is not empty panics in
    content sniffing ([buf[:n]] on the nil buffer).  A GET of [f.txt] with
    [Range: bytes=--5,0-0] passes the parser with a first range that starts
    beyond the resource, and the multi-range branch then calls [Error] on
    the nil [err]. *)
Theorem ServeHTTP_panics :
  (exists w what,
     ServeHTTP exampleEnv twoFilesZip emptyResponse (get "/dir/b.bin" [])
     = Panicked w what)
  /\ (exists w what,
        ServeHTTP exampleEnv oneFileStore emptyResponse
          (get "/f.txt" [("Range", "bytes=--5,0-0")])
        = Panicked w what).
Proof.
  split; do 2 eexists; vm_compute; reflexivity.
Qed.

(* ===================================================================== *)
(** ** Loading *)
(* ===================================================================== *)

(** Every key the zip loop adds points to the one cell of [fc]. *)
Lemma openZipLoop_files members : forall za fc za',
  openZipLoop za fc members = (za', None) ->
  forall k l, files za' !! k = Some l -> l = fc \/ files za !! k = Some l.
Proof.
  induction members as [|f rest IH]; intros za fc za' H k l Hk; simpl in H.
  - inversion H; subst. now right.
  - destruct (zOpen f) as [[data|e]|e]; [|discriminate|discriminate].
    destruct (IH _ _ _ H k l Hk) as [->|Hin]; [now left|].
    simpl in Hin. destruct (decide (zName f = k)) as [E|Hne]; [subst k|].
    + rewrite lookup_insert_eq in Hin. left. congruence.
    + rewrite lookup_insert_ne in Hin by assumption. now right.
Qed.

Lemma openTarLoop_files tr : forall za fc za',
  openTarLoop za fc tr = (za', None) ->
  forall k l, files za' !! k = Some l -> l = fc \/ files za !! k = Some l.
Proof.
  induction tr as [| |hdr body err rest IH]; intros za fc za' H k l Hk; simpl in H.
  - inversion H; subst. now right.
  - discriminate.
  - destruct err as [e|]; [discriminate|].
    destruct (IH _ _ _ H k l Hk) as [->|Hin]; [now left|].
    simpl in Hin. destruct (decide (tName hdr = k)) as [E|Hne]; [subst k|].
    + rewrite lookup_insert_eq in Hin. left. congruence.
    + rewrite lookup_insert_ne in Hin by assumption. now right.
Qed.

(** In a store loaded from a zip archive all keys hold the same pointer. *)
Lemma zip_store_aliased fs pathname za :
  HasSuffix (ToLower pathname) ".zip" = true ->
  NewZipAssets fs pathname [] = (Archive za, None) ->
  forall k1 k2 l1 l2,
    files za !! k1 = Some l1 -> files za !! k2 = Some l2 -> l1 = l2.
Proof.
  intros Hzip. unfold NewZipAssets. rewrite Hzip. unfold openZip, newCell.
  cbn [path setCell].
  destruct (zip_OpenReader fs pathname) as [members|e]; [|discriminate].
  destruct (openZipLoop _ _ members) as [za' [e|]] eqn:Hloop; [discriminate|].
  intros [= <-] k1 k2 l1 l2 H1 H2.
  destruct (openZipLoop_files _ _ _ _ Hloop k1 l1 H1) as [->|F1];
    [|simpl in F1; now rewrite lookup_empty in F1].
  destruct (openZipLoop_files _ _ _ _ Hloop k2 l2 H2) as [->|F2];
    [reflexivity|simpl in F2; now rewrite lookup_empty in F2].
Qed.


(* ===================================================================== *)
(** ** Conditional requests *)
(* ===================================================================== *)

(** The 304 reply of both checks: Content-Type and Content-Length removed,
    status written. *)
Lemma notModified_spec rw :
  let w := WriteHeader (delHeader (delHeader rw "Content-Type") "Content-Length")
             StatusNotModified in
  RespHeader w !! "Content-Type" = None
  /\ RespHeader w !! "Content-Length" = None
  /\ Body w = Body rw
  /\ (Status rw = None -> Status w = Some StatusNotModified).
Proof.
  unfold WriteHeader. cbn [Status delHeader RespHeader Body].
  destruct (Status rw) as [c|]; cbn [RespHeader Body Status delHeader];
    (refine (conj _ (conj _ (conj eq_refl _)));
     [ rewrite lookup_delete_ne by discriminate; apply lookup_delete_eq
     | apply lookup_delete_eq
     | congruence ]).
Qed.

Lemma ServeHTTP_found env za rw req fc :
  lookupFile za (storeKey req) = Some fc ->
  ServeHTTP env za rw req
  = let '(w, done) := checkLastModified env rw req (lastModified fc) in
    if done then Returned w else serveChecked env w req (storeKey req) fc.
Proof.
  unfold lookupFile, ServeHTTP. intros H.
  destruct (files za !! storeKey req) as [l|]; [|discriminate]. now rewrite H.
Qed.

(** C7. For an entry with a non-zero [lastModified]: when If-Modified-Since
    parses to [t] and [lastModified < t + 1s], the handler replies 304
    with Content-Type and Content-Length removed and stops; otherwise it
    sets Last-Modified to the formatted [lastModified] and goes on to the
    ETag check.  So a date one second after the mtime gives 304, and one
    second before gives normal handling. *)
Theorem checkLastModified_spec env za rw req fc :
  lookupFile za (storeKey req) = Some fc ->
  lastModified fc <> 0 ->
  let ims := ParseTime env (Header_Get (ReqHeader req) "If-Modified-Since") in
  let w304 := WriteHeader (delHeader (delHeader rw "Content-Type") "Content-Length")
                StatusNotModified in
  let wLM := setHeader rw "Last-Modified" (FormatTime env (lastModified fc)) in
  (forall t, ims = Some t -> lastModified fc < t + second ->
     checkLastModified env rw req (lastModified fc) = (w304, true)
     /\ ServeHTTP env za rw req = Returned w304
     /\ RespHeader w304 !! "Content-Type" = None
     /\ RespHeader w304 !! "Content-Length" = None
     /\ Body w304 = Body rw
     /\ (Status rw = None -> Status w304 = Some StatusNotModified))
  /\ ((ims = None \/ exists t, ims = Some t /\ t + second <= lastModified fc) ->
      checkLastModified env rw req (lastModified fc) = (wLM, false)
      /\ ServeHTTP env za rw req = serveChecked env wLM req (storeKey req) fc
      /\ Header_Get (RespHeader wLM) "Last-Modified" = FormatTime env (lastModified fc))
  /\ (ims = Some (lastModified fc + second) -> ServeHTTP env za rw req = Returned w304)
  /\ (ims = Some (lastModified fc - second) ->
      ServeHTTP env za rw req = serveChecked env wLM req (storeKey req) fc).
Proof.
  intros Hlook Hnz ims w304 wLM.
  assert (Hz : (lastModified fc =? 0) = false) by now apply Z.eqb_neq.
  assert (H304 : forall t, ims = Some t -> lastModified fc < t + second ->
            checkLastModified env rw req (lastModified fc) = (w304, true)).
  { intros t Ht Hlt. unfold checkLastModified. fold ims. rewrite Hz, Ht.
    replace (lastModified fc <? t + 1 * second) with true; [reflexivity|].
    symmetry. apply Z.ltb_lt. lia. }
  assert (HLM : (ims = None \/ exists t, ims = Some t /\ t + second <= lastModified fc) ->
            checkLastModified env rw req (lastModified fc) = (wLM, false)).
  { intros H. unfold checkLastModified. fold ims. rewrite Hz.
    destruct H as [->|(t & -> & Hge)]; [reflexivity|].
    replace (lastModified fc <? t + 1 * second) with false; [reflexivity|].
    symmetry. apply Z.ltb_ge. lia. }
  assert (S304 : forall t, ims = Some t -> lastModified fc < t + second ->
            ServeHTTP env za rw req = Returned w304).
  { intros t Ht Hlt. rewrite (ServeHTTP_found _ _ _ _ _ Hlook).
    now rewrite (H304 t Ht Hlt). }
  assert (SLM : (ims = None \/ exists t, ims = Some t /\ t + second <= lastModified fc) ->
            ServeHTTP env za rw req = serveChecked env wLM req (storeKey req) fc).
  { intros H. rewrite (ServeHTTP_found _ _ _ _ _ Hlook). now rewrite (HLM H). }
  destruct (notModified_spec rw) as (N1 & N2 & N3 & N4).
  refine (conj _ (conj _ (conj _ _))).
  - intros t Ht Hlt. repeat split; eauto.
  - intros H. refine (conj (HLM H) (conj (SLM H) _)). apply Header_Get_Set.
  - intros Ht. apply (S304 _ Ht). unfold second. lia.
  - intros Ht. apply SLM. right. eexists; split; [exact Ht|]. lia.
Qed.

(** [f.txt], modified on 1 January 2015, asked for with that date: the
    reply is 304. *)
Lemma checkLastModified_spec_witness :
  let req := get "/f.txt" [("If-Modified-Since", jan1)] in
  ServeHTTP exampleEnv oneFileStore emptyResponse req
  = Returned (WriteHeader (delHeader (delHeader emptyResponse "Content-Type")
                             "Content-Length") StatusNotModified).
Proof.
  assert (Hlook : lookupFile oneFileStore
                    (storeKey (get "/f.txt" [("If-Modified-Since", jan1)]))
                  = Some (mkFile "f.txt" false jan1_instant digits10))
    by (vm_compute; reflexivity).
  assert (Hnz : lastModified (mkFile "f.txt" false jan1_instant digits10) <> 0)
    by (vm_compute; congruence).
  destruct (checkLastModified_spec exampleEnv oneFileStore emptyResponse _ _ Hlook Hnz)
    as [H _].
  destruct (H jan1_instant) as (_ & HS & _).
  - vm_compute. reflexivity.
  - vm_compute. reflexivity.
  - exact HS.
Defined.

Lemma checkLastModified_done env rw req modtime w :
  checkLastModified env rw req modtime = (w, true) ->
  w = WriteHeader (delHeader (delHeader rw "Content-Type") "Content-Length")
        StatusNotModified.
Proof.
  unfold checkLastModified.
  destruct (modtime =? 0); [discriminate|].
  destruct (ParseTime env _) as [t|]; [|discriminate].
  destruct (modtime <? t + 1 * second); [|discriminate]. congruence.
Qed.

(** When the ETag is known and If-None-Match equals it or is [*], on a GET
    or HEAD, the ETag check replies 304. *)
Lemma checkETag_match rw req :
  Header_Get (ReqHeader req) "If-None-Match" <> "" ->
  Method req = "GET" \/ Method req = "HEAD" ->
  Header_Get (RespHeader rw) "Etag" <> "" ->
  Header_Get (ReqHeader req) "If-None-Match" = Header_Get (RespHeader rw) "Etag"
  \/ Header_Get (ReqHeader req) "If-None-Match" = "*" ->
  checkETag rw req
  = (WriteHeader (delHeader (delHeader rw "Content-Type") "Content-Length")
       StatusNotModified, "", true).
Proof.
  intros Hinm Hm Het Hmatch. unfold checkETag.
  apply String.eqb_neq in Hinm. apply String.eqb_neq in Het.
  rewrite Hinm, Het. cbn [negb].
  replace (negb (String.eqb (Method req) "GET") && negb (String.eqb (Method req) "HEAD"))
    with false by (destruct Hm as [->| ->]; reflexivity).
  replace (String.eqb (Header_Get (ReqHeader req) "If-None-Match")
             (Header_Get (RespHeader rw) "Etag")
           || String.eqb (Header_Get (ReqHeader req) "If-None-Match") "*")
    with true; [reflexivity|].
  symmetry. apply orb_true_iff.
  destruct Hmatch as [E|E]; [left|right]; now apply String.eqb_eq.
Qed.

(** C8. With If-None-Match on a GET or HEAD: an empty ETag never matches;
    a non-empty ETag equal to If-None-Match, or If-None-Match [*], gives
    304 with Content-Type and Content-Length removed and nothing written
    to the body, and the handler stops.  With any other method the check
    does not complete the request.  An If-Range that differs from the ETag
    makes the effective Range header empty; otherwise, when the request
    goes on, it is the request's Range header. *)
Theorem checkETag_spec rw req :
  let etag := Header_Get (RespHeader rw) "Etag" in
  let inm := Header_Get (ReqHeader req) "If-None-Match" in
  let ir := Header_Get (ReqHeader req) "If-Range" in
  let w304 := WriteHeader (delHeader (delHeader rw "Content-Type") "Content-Length")
                StatusNotModified in
  (etag = "" -> snd (checkETag rw req) = false)
  /\ (inm <> "" -> Method req = "GET" \/ Method req = "HEAD" ->
      etag <> "" -> inm = etag \/ inm = "*" ->
      checkETag rw req = (w304, "", true)
      /\ forall env za fc,
           lookupFile za (storeKey req) = Some fc ->
           exists w',
             ServeHTTP env za rw req = Returned w'
             /\ RespHeader w' !! "Content-Type" = None
             /\ RespHeader w' !! "Content-Length" = None
             /\ Body w' = Body rw
             /\ (Status rw = None -> Status w' = Some StatusNotModified))
  /\ (Method req <> "GET" -> Method req <> "HEAD" -> snd (checkETag rw req) = false)
  /\ (ir <> "" -> ir <> etag -> snd (fst (checkETag rw req)) = "")
  /\ (ir = "" \/ ir = etag -> snd (checkETag rw req) = false ->
      checkETag rw req = (rw, Header_Get (ReqHeader req) "Range", false)).
Proof.
  intros etag inm ir w304.
  refine (conj _ (conj _ (conj _ (conj _ _)))).
  - unfold checkETag. fold etag inm ir. intros ->. cbn [String.eqb].
    destruct (negb (String.eqb inm "")); reflexivity.
  - intros Hinm Hm Het Hmatch.
    split; [now apply checkETag_match|].
    intros env za fc Hlook. rewrite (ServeHTTP_found _ _ _ _ _ Hlook).
    destruct (checkLastModified env rw req (lastModified fc)) as [w1 done] eqn:E.
    destruct done.
    + apply checkLastModified_done in E. subst w1.
      eexists; split; [reflexivity|]. apply notModified_spec.
    + pose proof (checkLastModified_continue env rw req (lastModified fc)) as C.
      rewrite E in C. destruct (C eq_refl) as (Cs & Cb & Ch). cbn [fst] in *.
      assert (Ce : Header_Get (RespHeader w1) "Etag" = etag)
        by (apply Ch; keys_differ).
      unfold serveChecked.
      rewrite (checkETag_match w1 req); try assumption;
        [|now rewrite Ce|now rewrite Ce].
      eexists; split; [reflexivity|].
      destruct (notModified_spec w1) as (N1 & N2 & N3 & N4).
      refine (conj N1 (conj N2 (conj _ _))); [congruence|].
      intros Hst. apply N4. congruence.
  - unfold checkETag. fold etag inm ir.
    intros H1 H2. apply String.eqb_neq in H1. apply String.eqb_neq in H2.
    rewrite H1, H2. cbn [negb andb].
    destruct (negb (String.eqb inm "")); [|reflexivity].
    destruct (String.eqb etag ""); reflexivity.
  - unfold checkETag. fold etag inm ir.
    intros H1 H2. apply String.eqb_neq in H1. apply String.eqb_neq in H2.
    rewrite H1, H2. cbn [negb andb].
    repeat match goal with
    | |- context [if ?b then _ else _] => destruct b
    end; reflexivity.
  - unfold checkETag. fold etag inm ir. intros Hir.
    assert (E : negb (String.eqb ir "") && negb (String.eqb ir etag) = false).
    { destruct Hir as [->|E]; [reflexivity|].
      apply String.eqb_eq in E. rewrite E. apply andb_false_r. }
    rewrite E.
    repeat match goal with
    | |- context [if ?b then _ else _] => destruct b
    end; cbn [snd]; congruence.
Qed.

(** A response whose ETag is [v1] and a GET with [If-None-Match: v1]: the
    reply is 304. *)
Lemma checkETag_spec_witness :
  let rw := setHeader emptyResponse "Etag" "v1" in
  let req := get "/f.txt" [("If-None-Match", "v1")] in
  checkETag rw req
  = (WriteHeader (delHeader (delHeader rw "Content-Type") "Content-Length")
       StatusNotModified, "", true).
Proof.
  destruct (checkETag_spec (setHeader emptyResponse "Etag" "v1")
              (get "/f.txt" [("If-None-Match", "v1")])) as (_ & H & _).
  destruct H as (H & _).
  - vm_compute. congruence.
  - left. reflexivity.
  - vm_compute. congruence.
  - left. vm_compute. reflexivity.
  - exact H.
Defined.

(* ===================================================================== *)
(** ** Construction *)
(* ===================================================================== *)




(* ===================================================================== *)
(** ** More on the range parser *)
(* ===================================================================== *)

Lemma str_app_assoc s t u : (s +:+ t) +:+ u = s +:+ (t +:+ u).
Proof.
  induction s as [|a s IH]; [reflexivity|].
  change (String a ((s +:+ t) +:+ u) = String a (s +:+ (t +:+ u))). now rewrite IH.
Qed.

Lemma drop_str_succ s (c : ascii) rest :
  drop_str (S (String.length s)) (s +:+ String c rest) = rest.
Proof. induction s as [|a s IH]; [reflexivity|exact IH]. Qed.

Lemma digits20 n :
  0 <= n <= int64_max ->
  str_all is_digit (digits 20 n) = true
  /\ digits 20 n <> EmptyString
  /\ ParseInt (digits 20 n) = Some n.
Proof.
  intros Hn. unfold int64_max in Hn.
  refine (conj (digits_all_digit 20 n ltac:(lia)) (conj (digits_nonempty 19 n) _)).
  apply ParseInt_digits; unfold int64_max; [|lia].
  change (10 ^ Z.of_nat 20) with 100000000000000000000. lia.
Qed.

Lemma digits_no_comma d :
  str_all is_digit d = true ->
  str_all (fun a => negb (Ascii.eqb a ",")) d = true.
Proof.
  apply str_all_impl. intros a Ha. now rewrite (is_digit_neq a ","%char Ha eq_refl).
Qed.

(** A header with one entry that has no comma and nothing to trim goes
    through [parseOne]. *)
Lemma parseRange_one_entry e size :
  str_all (fun a => negb (Ascii.eqb a ",")) e = true ->
  TrimSpace e = e -> e <> EmptyString ->
  parseRange ("bytes=" +:+ e) size
  = match parseOne e size with Ok r => Ok [r] | Err msg => Err msg end.
Proof.
  intros Hcomma Htrim Hne. unfold parseRange.
  change ("bytes=" +:+ e) with
    (String "b" (String "y" (String "t" (String "e" (String "s" (String "=" e)))))).
  cbn [String.eqb Ascii.eqb HasPrefix drop_str negb Bool.eqb].
  rewrite HasPrefix_nil. cbn [negb].
  rewrite (Split_none _ _ Hcomma). cbn [parseEntries]. rewrite Htrim.
  replace (String.eqb e "") with false by (destruct e; [congruence|reflexivity]).
  destruct (parseOne e size); reflexivity.
Qed.

Lemma eqb_nonempty d : d <> EmptyString -> String.eqb d "" = false.
Proof. destruct d; [congruence|reflexivity]. Qed.

(** The prefix form [bytes=<n>-]: from [n] to the end of the resource, and
    an error when [n] is beyond its size. *)
Theorem parseRange_prefix n size :
  0 <= n <= int64_max -> 0 <= size <= int64_max ->
  parseRange ("bytes=" +:+ FormatInt n +:+ "-") size
  = if size <? n then Err "invalid range" else Ok [mkRange n (size - n)].
Proof.
  intros Hn Hsize. destruct (digits20 n Hn) as (Hall & Hne & Hparse).
  unfold int64_max in Hn, Hsize.
  unfold FormatInt. replace (n <? 0) with false by (symmetry; apply Z.ltb_ge; lia).
  set (d := digits 20 n) in *.
  rewrite parseRange_one_entry;
    [|rewrite str_all_app, digits_no_comma by assumption; reflexivity
     |now apply TrimSpace_digits_dash
     |destruct d; [congruence|discriminate]].
  unfold parseOne.
  rewrite (Index_digits d "-"%char "" eq_refl Hall).
  replace (Z.of_nat (String.length d) <? 0) with false
    by (symmetry; apply Z.ltb_ge; lia).
  rewrite Nat2Z.id, take_str_app.
  replace (Z.to_nat (Z.of_nat (String.length d) + 1)) with (S (String.length d)) by lia.
  rewrite (drop_str_succ d "-"%char "").
  rewrite (TrimSpace_digits d Hall Hne), (eqb_nonempty d Hne), Hparse.
  change (TrimSpace "") with "". cbn [String.eqb].
  replace (n <? 0) with false by (symmetry; apply Z.ltb_ge; lia).
  rewrite orb_false_r.
  destruct (size <? n) eqn:L; [reflexivity|]. apply Z.ltb_ge in L.
  rewrite int64_id by (unfold in_int64, int64_min, int64_max; lia). reflexivity.
Qed.

(** The prefix form on [bytes=3-] and [bytes=11-] against ten bytes. *)
Lemma parseRange_prefix_witness :
  parseRange "bytes=3-" 10 = Ok [mkRange 3 7]
  /\ parseRange "bytes=11-" 10 = Err "invalid range".
Proof.
  split.
  - apply (parseRange_prefix 3 10); vm_compute; split; congruence.
  - apply (parseRange_prefix 11 10); vm_compute; split; congruence.
Defined.

(** The full form [bytes=<n>-<m>]: an error when [n] is beyond the size or
    [m] is before [n]; otherwise the bytes from [n] to [m], or to the last
    byte of the resource when [m] is beyond it. *)
Theorem parseRange_full n m size :
  0 <= n <= int64_max -> 0 <= m <= int64_max -> 0 <= size <= int64_max ->
  parseRange ("bytes=" +:+ FormatInt n +:+ "-" +:+ FormatInt m) size
  = if (size <? n) || (m <? n) then Err "invalid range"
    else Ok [mkRange n (Z.min m (size - 1) - n + 1)].
Proof.
  intros Hn Hm Hsize.
  destruct (digits20 n Hn) as (Hall & Hne & Hparse).
  destruct (digits20 m Hm) as (Hall' & Hne' & Hparse').
  unfold int64_max in Hn, Hm, Hsize.
  unfold FormatInt.
  replace (n <? 0) with false by (symmetry; apply Z.ltb_ge; lia).
  replace (m <? 0) with false by (symmetry; apply Z.ltb_ge; lia).
  set (d := digits 20 n) in *. set (d' := digits 20 m) in *.
  rewrite parseRange_one_entry.
  - unfold parseOne.
    change (d +:+ "-" +:+ d') with (d +:+ String "-" d').
    rewrite (Index_digits d "-"%char d' eq_refl Hall).
    replace (Z.of_nat (String.length d) <? 0) with false
      by (symmetry; apply Z.ltb_ge; lia).
    rewrite Nat2Z.id, take_str_app.
    replace (Z.to_nat (Z.of_nat (String.length d) + 1)) with (S (String.length d)) by lia.
    rewrite (drop_str_succ d "-"%char d').
    rewrite (TrimSpace_digits d Hall Hne), (eqb_nonempty d Hne), Hparse.
    rewrite (TrimSpace_digits d' Hall' Hne'), (eqb_nonempty d' Hne'), Hparse'.
    replace (n <? 0) with false by (symmetry; apply Z.ltb_ge; lia).
    rewrite orb_false_r.
    destruct (size <? n) eqn:L; [reflexivity|]. apply Z.ltb_ge in L.
    cbn [orb]. destruct (m <? n) eqn:L'; [reflexivity|]. apply Z.ltb_ge in L'.
    destruct (size <=? m) eqn:C.
    + apply Z.leb_le in C.
      rewrite (int64_id (size - 1)) by (unfold in_int64, int64_min, int64_max; lia).
      rewrite (int64_id (size - 1 - n)) by (unfold in_int64, int64_min, int64_max; lia).
      rewrite int64_id by (unfold in_int64, int64_min, int64_max; lia).
      now rewrite Z.min_r by lia.
    + apply Z.leb_gt in C.
      rewrite (int64_id (m - n)) by (unfold in_int64, int64_min, int64_max; lia).
      rewrite int64_id by (unfold in_int64, int64_min, int64_max; lia).
      now rewrite Z.min_l by lia.
  - change (d +:+ "-" +:+ d') with (d +:+ String "-" d').
    rewrite str_all_app. cbn [str_all Ascii.eqb Bool.eqb negb andb].
    now rewrite !digits_no_comma.
  - destruct (str_all_head _ _ Hall Hne) as (a & r & Ea & Ha).
    destruct (str_all_last _ _ Hall' Hne') as (t & z & Ez & Hz).
    eapply (TrimSpace_plain _ a (r +:+ "-" +:+ d') (d +:+ "-" +:+ t) z);
      [now rewrite Ea| |now apply is_digit_plain|now apply is_digit_plain].
    rewrite Ez. now rewrite !str_app_assoc.
  - destruct d; [congruence|discriminate].
Qed.

(** The full form on [bytes=2-5], [bytes=2-50] and [bytes=5-2] against ten
    bytes. *)
Lemma parseRange_full_witness :
  parseRange "bytes=2-5" 10 = Ok [mkRange 2 4]
  /\ parseRange "bytes=2-50" 10 = Ok [mkRange 2 8]
  /\ parseRange "bytes=5-2" 10 = Err "invalid range".
Proof.
  split; [|split].
  - apply (parseRange_full 2 5 10); vm_compute; split; congruence.
  - apply (parseRange_full 2 50 10); vm_compute; split; congruence.
  - apply (parseRange_full 5 2 10); vm_compute; split; congruence.
Defined.

(** The suffix form [bytes=-<n>] with a count that is not negative: the
    last [n] bytes, or the whole resource when [n] is larger than it. *)
Theorem parseRange_last_bytes n size :
  0 <= n <= int64_max -> 0 <= size <= int64_max ->
  parseRange ("bytes=-" +:+ FormatInt n) size
  = Ok [mkRange (size - Z.min n size) (Z.min n size)].
Proof.
  intros Hn Hsize. rewrite parseRange_suffix by assumption.
  do 3 f_equal. lia.
Qed.

(** The suffix form on [bytes=-3] and [bytes=-30] against ten bytes. *)
Lemma parseRange_last_bytes_witness :
  parseRange "bytes=-3" 10 = Ok [mkRange 7 3]
  /\ parseRange "bytes=-30" 10 = Ok [mkRange 0 10].
Proof.
  split.
  - apply (parseRange_last_bytes 3 10); vm_compute; split; congruence.
  - apply (parseRange_last_bytes 30 10); vm_compute; split; congruence.
Defined.

Lemma Split_nonempty s sep : Split s sep <> [].
Proof.
  destruct s as [|a s]; simpl; [discriminate|].
  destruct (Ascii.eqb a sep); [discriminate|].
  destruct (Split s sep); discriminate.
Qed.

Lemma Split_app a b (sep : ascii) :
  Split (a +:+ String sep b) sep = (Split a sep ++ Split b sep)%list.
Proof.
  induction a as [|c a IH].
  - change (Split (String sep b) sep = EmptyString :: Split b sep).
    simpl. now rewrite Ascii.eqb_refl.
  - change (Split (String c (a +:+ String sep b)) sep
            = (Split (String c a) sep ++ Split b sep)%list).
    cbn [Split]. rewrite IH.
    destruct (Ascii.eqb c sep); [reflexivity|].
    pose proof (Split_nonempty a sep).
    destruct (Split a sep) as [|h t]; [congruence|reflexivity].
Qed.

(** The accumulator of [parseEntries] is a prefix of its result. *)
Lemma parseEntries_acc pieces size : forall acc,
  parseEntries pieces size acc
  = match parseEntries pieces size [] with
    | Ok rs => Ok (acc ++ rs)%list
    | Err e => Err e
    end.
Proof.
  induction pieces as [|p pieces IH]; intros acc; simpl.
  - now rewrite app_nil_r.
  - destruct (String.eqb (TrimSpace p) ""); [apply IH|].
    destruct (parseOne (TrimSpace p) size) as [r|e]; [|reflexivity].
    rewrite (IH (acc ++ [r])%list), (IH [r]).
    destruct (parseEntries pieces size []); [|reflexivity].
    now rewrite <- app_assoc.
Qed.

Lemma parseEntries_app l1 l2 size : forall acc,
  parseEntries (l1 ++ l2)%list size acc
  = match parseEntries l1 size acc with
    | Ok rs => parseEntries l2 size rs
    | Err e => Err e
    end.
Proof.
  induction l1 as [|p l1 IH]; intros acc; simpl; [reflexivity|].
  destruct (String.eqb (TrimSpace p) ""); [apply IH|].
  destruct (parseOne (TrimSpace p) size); [apply IH|reflexivity].
Qed.

Lemma parseRange_bytes e size :
  parseRange ("bytes=" +:+ e) size = parseEntries (Split e ",") size [].
Proof.
  unfold parseRange.
  change ("bytes=" +:+ e) with
    (String "b" (String "y" (String "t" (String "e" (String "s" (String "=" e)))))).
  cbn [String.eqb Ascii.eqb HasPrefix drop_str negb Bool.eqb].
  now rewrite HasPrefix_nil.
Qed.

(** A comma splits the header: the ranges of the left part, then those of
    the right part, in that order and with nothing merged; an error on
    either side is the error of the whole. *)
Theorem parseRange_comma a b size :
  parseRange ("bytes=" +:+ a +:+ "," +:+ b) size
  = match parseRange ("bytes=" +:+ a) size, parseRange ("bytes=" +:+ b) size with
    | Ok r1, Ok r2 => Ok (r1 ++ r2)%list
    | Err e, _ => Err e
    | Ok _, Err e => Err e
    end.
Proof.
  rewrite !parseRange_bytes.
  change (a +:+ "," +:+ b) with (a +:+ String "," b).
  rewrite Split_app, parseEntries_app.
  destruct (parseEntries (Split a ",") size []) as [r1|e]; [|reflexivity].
  apply parseEntries_acc.
Qed.

Lemma parseOne_error ra size e : parseOne ra size = Err e -> e = "invalid range".
Proof.
  unfold parseOne.
  repeat match goal with
  | |- context [if ?b then _ else _] => destruct b
  | |- context [match ParseInt ?s with _ => _ end] => destruct (ParseInt s)
  end; congruence.
Qed.

Lemma parseEntries_error pieces size : forall acc e,
  parseEntries pieces size acc = Err e -> e = "invalid range".
Proof.
  induction pieces as [|p pieces IH]; intros acc e; simpl; [discriminate|].
  destruct (String.eqb (TrimSpace p) ""); [apply IH|].
  destruct (parseOne (TrimSpace p) size) as [r|e'] eqn:E; [apply IH|].
  intros [= <-]. eapply parseOne_error; eassumption.
Qed.

Lemma parseEntries_bad_entry p size pieces : forall acc,
  In p pieces -> TrimSpace p <> "" -> Index (TrimSpace p) "-" < 0 ->
  exists e, parseEntries pieces size acc = Err e.
Proof.
  induction pieces as [|q pieces IH]; intros acc Hin Hne Hidx; [destruct Hin|].
  destruct Hin as [->|Hin]; simpl.
  - rewrite (eqb_nonempty _ Hne). unfold parseOne.
    replace (Index (TrimSpace p) "-" <? 0) with true
      by (symmetry; apply Z.ltb_lt; lia).
    eauto.
  - destruct (String.eqb (TrimSpace q) ""); [now apply IH|].
    destruct (parseOne (TrimSpace q) size); [now apply IH|eauto].
Qed.


(** The parser has one error, [invalid range]: it is what a header that
    is not empty and does not start with [bytes=] gets, and what a header
    gets that has, between its commas, an entry that is not blank and has
    no dash. *)
Theorem parseRange_errors s size :
  (forall e, parseRange s size = Err e -> e = "invalid range")
  /\ (s <> "" -> HasPrefix s "bytes=" = false -> parseRange s size = Err "invalid range")
  /\ (forall p,
        s <> "" -> In p (Split (drop_str 6 s) ",") ->
        TrimSpace p <> "" -> Index (TrimSpace p) "-" < 0 ->
        parseRange s size = Err "invalid range").
Proof.
  assert (Hmsg : forall e, parseRange s size = Err e -> e = "invalid range").
  { intros e. unfold parseRange.
    destruct (String.eqb s ""); [discriminate|].
    destruct (negb (HasPrefix s "bytes=")); [congruence|].
    apply parseEntries_error. }
  refine (conj Hmsg (conj _ _)).
  - intros Hne Hpre. unfold parseRange.
    rewrite (eqb_nonempty s Hne), Hpre. reflexivity.
  - intros p Hne Hin Hp Hidx.
    destruct (parseRange s size) as [rs|e] eqn:E; [|now rewrite (Hmsg e)].
    exfalso. unfold parseRange in E. rewrite (eqb_nonempty s Hne) in E.
    destruct (negb (HasPrefix s "bytes=")); [discriminate|].
    destruct (parseEntries_bad_entry p size _ [] Hin Hp Hidx) as [e He].
    congruence.
Qed.

(** The errors on [range=0-1] and on [bytes=0-1,x]. *)
Lemma parseRange_errors_witness :
  parseRange "range=0-1" 10 = Err "invalid range"
  /\ parseRange "bytes=0-1,x" 10 = Err "invalid range".
Proof.
  destruct (parseRange_errors "range=0-1" 10) as (_ & H2 & _).
  destruct (parseRange_errors "bytes=0-1,x" 10) as (_ & _ & H3).
  split.
  - apply H2; [discriminate|reflexivity].
  - apply (H3 "x"); [discriminate|vm_compute; auto|discriminate|vm_compute; reflexivity].
Defined.

(** Against a resource of a size that fits [int64], every range the
    parser returns lies within the resource, with [0 <= start],
    [0 <= length] and [start + length <= size], unless its length is
    negative. *)
Theorem parseRange_within s size rs :
  0 <= size <= int64_max ->
  parseRange s size = Ok rs ->
  Forall (fun r => length r < 0 \/ wellFormed size r) rs.
Proof. apply parseRange_bounds. Qed.

(** The ranges of [bytes=0-4, -3] against ten bytes. *)
Lemma parseRange_within_witness :
  Forall (fun r => length r < 0 \/ wellFormed 10 r) [mkRange 0 5; mkRange 7 3].
Proof.
  apply (parseRange_within "bytes=0-4, -3" 10).
  - vm_compute. split; congruence.
  - vm_compute. reflexivity.
Defined.

(* ===================================================================== *)
(** ** Whole responses *)
(* ===================================================================== *)

Lemma sumRangesSize_acc rs : forall a,
  fold_left (fun size ra => int64 (size + length ra)) rs (int64 a)
  = int64 (a + totalLength rs).
Proof.
  induction rs as [|r rs IH]; intros a; simpl.
  - now rewrite Z.add_0_r.
  - rewrite int64_add_l, IH. f_equal. lia.
Qed.

(** [sumRangesSize] is the sum of the lengths, reduced to [int64]. *)
Lemma sumRangesSize_total rs : sumRangesSize rs = int64 (totalLength rs).
Proof.
  unfold sumRangesSize. change 0 with (int64 0) at 1. apply sumRangesSize_acc.
Qed.

(** No ranges, or ranges that sum to more than the resource: the whole
    content with status 200. *)
Lemma serveRanges_whole env w req fc ctype rangeReq ranges :
  parseRange rangeReq (len (content fc)) = Ok ranges ->
  ranges = [] \/ len (content fc) < sumRangesSize ranges ->
  serveRanges env w req fc ctype rangeReq
  = Returned (finish w req StatusOK (len (content fc)) (content fc)).
Proof.
  intros Hparse H. unfold serveRanges. rewrite Hparse.
  destruct H as [->|Hlt];
    [now destruct (len (content fc) <? sumRangesSize [])|].
  replace (len (content fc) <? sumRangesSize ranges) with true; [reflexivity|].
  symmetry. now apply Z.ltb_lt.
Qed.

Lemma take_len {A} (l : list A) : take (Z.to_nat (len l)) l = l.
Proof. unfold len. rewrite Nat2Z.id. apply firstn_all. Qed.

(** What reaches range resolution is the response as it was given, but for
    Last-Modified. *)
Lemma reaches_response env za rw req fc w ctype rangeReq :
  reachesRanges env za rw req fc w ctype rangeReq ->
  Status w = Status rw /\ Body w = Body rw
  /\ (forall key, CanonicalMIMEHeaderKey key <> "Last-Modified" ->
        Header_Get (RespHeader w) key = Header_Get (RespHeader rw) key)
  /\ (rangeReq = "" \/ rangeReq = Header_Get (ReqHeader req) "Range").
Proof.
  intros (_ & Hlm & Het & _).
  pose proof (checkETag_continue _ _ _ _ Het) as ->.
  destruct (checkLastModified_continue _ _ _ _ Hlm) as (Hs & Hb & Hh).
  refine (conj Hs (conj Hb (conj Hh _))).
  revert Het. unfold checkETag.
  repeat match goal with
  | |- context [if ?b then _ else _] => destruct b
  end; intros E; inversion E; subst; auto.
Qed.

(** The whole content as response: status 200, Content-Length the size,
    Accept-Ranges, and the content as body unless the method is HEAD. *)
Lemma whole_response env za rw req fc w ctype rangeReq ranges :
  reachesRanges env za rw req fc w ctype rangeReq ->
  parseRange rangeReq (len (content fc)) = Ok ranges ->
  ranges = [] \/ len (content fc) < sumRangesSize ranges ->
  Status rw = None ->
  Header_Get (RespHeader rw) "Content-Encoding" = "" ->
  exists w',
    ServeHTTP env za rw req = Returned w'
    /\ Status w' = Some StatusOK
    /\ Header_Get (RespHeader w') "Content-Length" = FormatInt (len (content fc))
    /\ Header_Get (RespHeader w') "Accept-Ranges" = "bytes"
    /\ Header_Get (RespHeader w') "Content-Range"
       = Header_Get (RespHeader rw) "Content-Range"
    /\ Body w' = (Body rw ++ if String.eqb (Method req) "HEAD" then []
                             else content fc)%list.
Proof.
  intros Hreach Hparse Hnone Hst Henc.
  rewrite (ServeHTTP_reaches _ _ _ _ _ _ _ _ Hreach).
  destruct (reaches_response _ _ _ _ _ _ _ _ Hreach) as (Hs & Hb & Hh & _).
  rewrite (serveRanges_whole _ _ _ _ _ _ _ Hparse Hnone).
  eexists; split; [reflexivity|].
  destruct (finish_spec w req StatusOK (len (content fc)) (content fc))
    as (H1 & H2 & H3 & H4 & H5).
  - congruence.
  - rewrite Hh by keys_differ. exact Henc.
  - refine (conj H1 (conj H2 (conj H3 (conj _ _)))).
    + rewrite H4 by keys_differ. apply Hh. keys_differ.
    + rewrite H5, Hb, take_len. reflexivity.
Qed.

(** A request without a Range header that gets as far as range resolution
    is answered 200 with the whole content, Content-Length its size and
    Accept-Ranges, the body left out for HEAD. *)
Theorem no_range_whole_content env za rw req fc w ctype rangeReq :
  reachesRanges env za rw req fc w ctype rangeReq ->
  Header_Get (ReqHeader req) "Range" = "" ->
  Status rw = None ->
  Header_Get (RespHeader rw) "Content-Encoding" = "" ->
  exists w',
    ServeHTTP env za rw req = Returned w'
    /\ Status w' = Some StatusOK
    /\ Header_Get (RespHeader w') "Content-Length" = FormatInt (len (content fc))
    /\ Header_Get (RespHeader w') "Accept-Ranges" = "bytes"
    /\ Body w' = (Body rw ++ if String.eqb (Method req) "HEAD" then []
                             else content fc)%list.
Proof.
  intros Hreach Hrange Hst Henc.
  destruct (reaches_response _ _ _ _ _ _ _ _ Hreach) as (_ & _ & _ & Hrr).
  assert (rangeReq = "") as -> by (destruct Hrr; congruence).
  destruct (whole_response env za rw req fc w ctype "" [] Hreach eq_refl
              (or_introl eq_refl) Hst Henc) as (w' & H0 & H1 & H2 & H3 & _ & H5).
  exists w'. auto.
Qed.

(** A plain GET of [f.txt]. *)
Lemma no_range_whole_content_witness :
  exists w',
    ServeHTTP exampleEnv oneFileStore emptyResponse (get "/f.txt" []) = Returned w'
    /\ Status w' = Some StatusOK
    /\ Header_Get (RespHeader w') "Content-Length" = "10"
    /\ Header_Get (RespHeader w') "Accept-Ranges" = "bytes"
    /\ Body w' = digits10.
Proof.
  apply (no_range_whole_content exampleEnv oneFileStore emptyResponse
           (get "/f.txt" []) (mkFile "f.txt" false jan1_instant digits10)
           (setHeader emptyResponse "Last-Modified" jan1)
           "text/plain; charset=utf-8" "").
  - unfold reachesRanges. repeat split; vm_compute; reflexivity.
  - vm_compute. reflexivity.
  - reflexivity.
  - vm_compute. reflexivity.
Defined.











(** The handler strips one leading slash and no more: a path and the same
    path with a slash before it are served alike when the path does not
    itself begin with a slash, and a second slash stays in the key. *)
Theorem leading_slash_stripped env za rw m p h :
  storeKey (mkRequest m ("/" +:+ p) h) = p
  /\ (HasPrefix p "/" = false ->
      ServeHTTP env za rw (mkRequest m ("/" +:+ p) h)
      = ServeHTTP env za rw (mkRequest m p h)).
Proof.
  assert (Hkey : storeKey (mkRequest m ("/" +:+ p) h) = p).
  { unfold storeKey. cbn [URLPath].
    change ("/" +:+ p) with (String "/" p).
    cbn [HasPrefix Ascii.eqb Bool.eqb drop_str]. now rewrite HasPrefix_nil. }
  split; [exact Hkey|].
  intros Hp.
  assert (Hkey' : storeKey (mkRequest m p h) = p).
  { unfold storeKey. cbn [URLPath]. now rewrite Hp. }
  unfold ServeHTTP. rewrite Hkey, Hkey'. reflexivity.
Qed.

(** [f.txt] and [/f.txt]. *)
Lemma leading_slash_stripped_witness :
  ServeHTTP exampleEnv oneFileStore emptyResponse (mkRequest "GET" "/f.txt" ∅)
  = ServeHTTP exampleEnv oneFileStore emptyResponse (mkRequest "GET" "f.txt" ∅).
Proof.
  apply (leading_slash_stripped exampleEnv oneFileStore emptyResponse "GET" "f.txt" ∅).
  reflexivity.
Defined.

(** With a Content-Encoding on the response the handler leaves
    Content-Length as it found it; status, Accept-Ranges and body are as
    without one. *)
Theorem content_encoding_no_length env za rw req fc w ctype rangeReq :
  reachesRanges env za rw req fc w ctype rangeReq ->
  Header_Get (ReqHeader req) "Range" = "" ->
  Status rw = None ->
  Header_Get (RespHeader rw) "Content-Encoding" <> "" ->
  exists w',
    ServeHTTP env za rw req = Returned w'
    /\ Status w' = Some StatusOK
    /\ RespHeader w' !! "Content-Length" = RespHeader rw !! "Content-Length"
    /\ Header_Get (RespHeader w') "Accept-Ranges" = "bytes"
    /\ Body w' = (Body rw ++ if String.eqb (Method req) "HEAD" then []
                             else content fc)%list.
Proof.
  intros Hreach Hrange Hst Henc.
  rewrite (ServeHTTP_reaches _ _ _ _ _ _ _ _ Hreach).
  destruct (reaches_response _ _ _ _ _ _ _ _ Hreach) as (Hs & Hb & Hh & Hrr).
  assert (rangeReq = "") as -> by (destruct Hrr; congruence).
  rewrite (serveRanges_whole env w req fc ctype "" [] eq_refl (or_introl eq_refl)).
  eexists; split; [reflexivity|].
  assert (HCL : RespHeader w !! "Content-Length" = RespHeader rw !! "Content-Length").
  { destruct Hreach as (_ & Hlm & Het & _).
    apply checkETag_continue in Het. subst w.
    revert Hlm. unfold checkLastModified.
    repeat match goal with
    | |- context [if ?b then _ else _] => destruct b
    | |- context [match ParseTime ?e ?s with _ => _ end] => destruct (ParseTime e s)
    end; cbn [fst snd]; try discriminate; intros _; try reflexivity;
      cbn [RespHeader setHeader]; unfold Header_Set;
      now rewrite lookup_insert_ne by keys_differ. }
  unfold finish.
  assert (E : String.eqb
                (Header_Get (RespHeader (setHeader w "Accept-Ranges" "bytes"))
                   "Content-Encoding") "" = false).
  { apply String.eqb_neq. cbn [RespHeader setHeader].
    rewrite Header_Get_Set_ne by keys_differ. rewrite Hh by keys_differ. exact Henc. }
  rewrite E.
  unfold WriteHeader. cbn [Status setHeader RespHeader Body]. rewrite Hs, Hst.
  destruct (String.eqb (Method req) "HEAD"); cbn [negb];
    unfold Write, WriteHeader; cbn [Status RespHeader Body];
    (refine (conj eq_refl (conj _ (conj _ _)));
     [ unfold Header_Set; rewrite lookup_insert_ne by keys_differ; exact HCL
     | apply Header_Get_Set
     | rewrite ?take_len, ?app_nil_r, Hb; reflexivity ]).
Qed.

(** [f.txt] on a response that is marked as gzip. *)
Lemma content_encoding_no_length_witness :
  exists w',
    ServeHTTP exampleEnv oneFileStore (setHeader emptyResponse "Content-Encoding" "gzip")
      (get "/f.txt" []) = Returned w'
    /\ Status w' = Some StatusOK
    /\ RespHeader w' !! "Content-Length" = None
    /\ Body w' = digits10.
Proof.
  destruct (content_encoding_no_length exampleEnv oneFileStore
              (setHeader emptyResponse "Content-Encoding" "gzip")
              (get "/f.txt" []) (mkFile "f.txt" false jan1_instant digits10)
              (setHeader (setHeader emptyResponse "Content-Encoding" "gzip")
                 "Last-Modified" jan1)
              "text/plain; charset=utf-8" "")
    as (w' & H0 & H1 & H2 & _ & H4).
  - unfold reachesRanges. repeat split; vm_compute; reflexivity.
  - vm_compute. reflexivity.
  - reflexivity.
  - vm_compute. congruence.
  - exists w'. refine (conj H0 (conj H1 (conj _ H4))).
    rewrite H2. vm_compute. reflexivity.
Defined.

(* ===================================================================== *)
(** ** Several ranges *)
(* ===================================================================== *)

Lemma rangesMIMESize_by_length b1 b2 ranges ctype size :
  String.length b1 = String.length b2 ->
  rangesMIMESize b1 ranges ctype size = rangesMIMESize b2 ranges ctype size.
Proof.
  intros Hb. rewrite !rangesMIMESize_spec.
  now rewrite (framing_boundary _ _ _ _ _ _ Hb), (closeBoundary_len _ _ Hb).
Qed.

(** The length the handler announces for a multipart body does not depend
    on which boundary the random source gives. *)
Theorem rangesMIMESize_any_boundary env env' k k' ranges ctype size :
  rangesMIMESize (randomBoundary env k) ranges ctype size
  = rangesMIMESize (randomBoundary env' k') ranges ctype size.
Proof.
  apply rangesMIMESize_by_length. now rewrite !randomBoundary_length.
Qed.

Lemma totalLength_nonneg size ranges :
  Forall (wellFormed size) ranges -> 0 <= totalLength ranges.
Proof.
  induction 1 as [|r rs Hr _ IH]; simpl; [lia|].
  destruct Hr as (_ & Hl & _). lia.
Qed.

Lemma starts_within size ranges :
  Forall (wellFormed size) ranges ->
  existsb (fun ra => size <? start ra) ranges = false.
Proof.
  induction 1 as [|r rs Hr _ IH]; simpl; [reflexivity|].
  destruct Hr as (Hs & Hl & Hb).
  rewrite IH, orb_false_r. apply Z.ltb_ge. lia.
Qed.

(** Two or more well-formed ranges whose lengths add up to no more than
    the resource are answered 206 with a multipart/byteranges body: the
    producer finishes, Content-Type names the boundary of the body,
    Content-Length is the number of bytes of the body, and the body (left
    out for HEAD) is what the producer wrote. *)
Theorem multi_range_multipart env za rw req fc w ctype rangeReq ranges :
  reachesRanges env za rw req fc w ctype rangeReq ->
  parseRange rangeReq (len (content fc)) = Ok ranges ->
  (2 <= List.length ranges)%nat ->
  Forall (wellFormed (len (content fc))) ranges ->
  totalLength ranges <= len (content fc) ->
  len (content fc) <= int64_max ->
  Status rw = None ->
  Header_Get (RespHeader rw) "Content-Encoding" = "" ->
  let written :=
    produce (randomBoundary env 1) false ranges ctype (content fc)
      (len (content fc)) [] in
  len (fst written) <= int64_max ->
  snd written = Finished
  /\ exists w',
      ServeHTTP env za rw req = Returned w'
      /\ Status w' = Some StatusPartialContent
      /\ Header_Get (RespHeader w') "Content-Type"
         = "multipart/byteranges; boundary=" +:+ randomBoundary env 1
      /\ Header_Get (RespHeader w') "Content-Length" = FormatInt (len (fst written))
      /\ Body w' = (Body rw ++ if String.eqb (Method req) "HEAD" then []
                               else fst written)%list.
Proof.
  intros Hreach Hparse Hlen Hall Htot Hmax Hst Henc written Hfit.
  destruct (produce_spec (randomBoundary env 1) ctype (content fc) ranges false []
              Hall) as [Hend Hwritten].
  fold written in Hend, Hwritten.
  split; [exact Hend|].
  rewrite (ServeHTTP_reaches _ _ _ _ _ _ _ _ Hreach).
  destruct (reaches_response _ _ _ _ _ _ _ _ Hreach) as (Hs & Hb & Hh & _).
  pose proof (totalLength_nonneg _ _ Hall) as Hnn.
  assert (Hsize : rangesMIMESize (randomBoundary env 0) ranges ctype (len (content fc))
                  = len (fst written)).
  { rewrite (rangesMIMESize_by_length _ (randomBoundary env 1))
      by now rewrite !randomBoundary_length.
    rewrite rangesMIMESize_spec.
    rewrite Hwritten. pose proof (len_nonneg (fst written)).
    rewrite Hwritten in H, Hfit.
    change (len []) with 0 in *.
    rewrite int64_id; [lia|]. unfold in_int64, int64_min. lia. }
  unfold serveRanges. rewrite Hparse, sumRangesSize_total.
  rewrite int64_id by (unfold in_int64, int64_min, int64_max in *; lia).
  replace (len (content fc) <? totalLength ranges) with false
    by (symmetry; apply Z.ltb_ge; lia).
  destruct ranges as [|r1 [|r2 rest]]; [simpl in Hlen; lia|simpl in Hlen; lia|].
  rewrite (starts_within _ _ Hall), Hsize.
  destruct written as [piped ending] eqn:Ew. unfold written in Ew. rewrite Ew.
  cbn [fst snd] in *. subst ending.
  eexists; split; [reflexivity|].
  set (w1 := setHeader w "Content-Type" _).
  destruct (finish_spec w1 req StatusPartialContent (len piped) piped)
    as (H1 & H2 & _ & H4 & H5).
  - unfold w1. cbn [Status setHeader]. congruence.
  - unfold w1. cbn [RespHeader setHeader].
    rewrite Header_Get_Set_ne by keys_differ. rewrite Hh by keys_differ. exact Henc.
  - refine (conj H1 (conj _ (conj H2 _))).
    + rewrite H4 by keys_differ. unfold w1. cbn [RespHeader setHeader].
      apply Header_Get_Set.
    + rewrite H5, take_len. unfold w1. cbn [Body setHeader]. now rewrite Hb.
Qed.

(** The first and the third byte of [f.txt]. *)
Lemma multi_range_multipart_witness :
  let req := get "/f.txt" [("Range", "bytes=0-0,2-2")] in
  let written :=
    produce (randomBoundary exampleEnv 1) false [mkRange 0 1; mkRange 2 1]
      "text/plain; charset=utf-8" digits10 10 [] in
  exists w',
    ServeHTTP exampleEnv oneFileStore emptyResponse req = Returned w'
    /\ Status w' = Some StatusPartialContent
    /\ Header_Get (RespHeader w') "Content-Length" = FormatInt (len (fst written))
    /\ Body w' = fst written.
Proof.
  destruct (multi_range_multipart exampleEnv oneFileStore emptyResponse
              (get "/f.txt" [("Range", "bytes=0-0,2-2")])
              (mkFile "f.txt" false jan1_instant digits10)
              (setHeader emptyResponse "Last-Modified" jan1)
              "text/plain; charset=utf-8" "bytes=0-0,2-2" [mkRange 0 1; mkRange 2 1])
    as (_ & w' & H0 & H1 & _ & H3 & H4).
  - unfold reachesRanges. repeat split; vm_compute; reflexivity.
  - vm_compute. reflexivity.
  - simpl. lia.
  - repeat constructor; vm_compute; congruence.
  - vm_compute. congruence.
  - vm_compute. congruence.
  - reflexivity.
  - vm_compute. reflexivity.
  - vm_compute. congruence.
  - exists w'. auto.
Defined.

(** What the multipart body holds.  On well-formed ranges the producer
    finishes, and it has written, for every range in the order of the
    header, a part with the Content-Range and Content-Type of the range
    followed by exactly the bytes of the content from [start] on, [length]
    of them, and the closing boundary after the last part. *)
Theorem multipart_body_slices boundary ctype (content : bytes) ranges :
  Forall (wellFormed (len content)) ranges ->
  produce boundary false ranges ctype content (len content) []
  = ((parts boundary false ranges ctype content ++ closeBoundary boundary)%list,
     Finished)
  /\ Forall (fun ra => len (slice content ra) = length ra
                       /\ forall i, (i < Z.to_nat (length ra))%nat ->
                            slice content ra !! i
                            = content !! (Z.to_nat (start ra) + i)%nat) ranges.
Proof.
  intros Hall. split.
  - assert (H : forall lastpart out,
      produce boundary lastpart ranges ctype content (len content) out
      = ((out ++ parts boundary lastpart ranges ctype content
              ++ closeBoundary boundary)%list, Finished)).
    { induction Hall as [|ra rest Hra Hrest IH]; intros lastpart out.
      - reflexivity.
      - cbn [produce parts].
        pose proof (copy_exact content ra Hra) as Hcopy.
        destruct Hra as (Hs & Hl & Hb).
        replace ((start ra <? 0) || (len content <? start ra)) with false
          by (symmetry; apply orb_false_iff; split; apply Z.ltb_ge; lia).
        rewrite Hcopy, Z.ltb_irrefl, IH. unfold slice.
        now rewrite <- !app_assoc. }
    apply (H false []).
  - eapply Forall_impl; [exact Hall|]. intros ra Hra. split.
    + now apply copy_exact.
    + intros i Hi. unfold slice, bytes. now rewrite lookup_take_lt, lookup_drop by lia.
Qed.

(** The first and the third byte of the ten digits: the second slice is
    the byte at offset 2. *)
Lemma multipart_body_slices_witness :
  produce "b" false [mkRange 0 1; mkRange 2 1] "text/plain" digits10 10 []
  = ((parts "b" false [mkRange 0 1; mkRange 2 1] "text/plain" digits10
        ++ closeBoundary "b")%list, Finished)
  /\ slice digits10 (mkRange 2 1) !! 0%nat = digits10 !! 2%nat.
Proof.
  destruct (multipart_body_slices "b" "text/plain" digits10 [mkRange 0 1; mkRange 2 1])
    as [H1 H2].
  - repeat constructor; vm_compute; congruence.
  - split; [exact H1|].
    inversion H2 as [|? ? _ H3]; subst. inversion H3 as [|? ? [_ H4] _]; subst.
    apply (H4 0%nat). vm_compute. lia.
Defined.

(* ===================================================================== *)
(** ** HEAD, and requests that cannot panic *)
(* ===================================================================== *)







Lemma resolveContentType_ok env w upath fc :
  RespHeader w !! "Content-Type" <> None
  \/ TypeByExtension env (Ext upath) <> ""
  \/ content fc = [] ->
  exists ctype, resolveContentType env w upath fc = Some ctype.
Proof.
  intros H. unfold resolveContentType.
  destruct (RespHeader w !! "Content-Type") as [[|c cs]|] eqn:E; [eauto|eauto|].
  destruct H as [H|[H|H]]; [congruence| |].
  - apply String.eqb_neq in H. rewrite H. eauto.
  - destruct (String.eqb _ ""); [|eauto]. rewrite H.
    change (len []) with 0. cbn. eauto.
Qed.

Lemma serveRanges_returns env w req fc ctype rangeReq :
  (forall rs, parseRange rangeReq (len (content fc)) = Ok rs ->
              Forall (wellFormed (len (content fc))) rs) ->
  exists w', serveRanges env w req fc ctype rangeReq = Returned w'.
Proof.
  intros Hwf. unfold serveRanges.
  destruct (parseRange rangeReq (len (content fc))) as [ranges|e]; [|eauto].
  specialize (Hwf ranges eq_refl).
  destruct (len (content fc) <? sumRangesSize ranges); [eauto|].
  destruct ranges as [|ra [|rb rest]]; [eauto|eauto|].
  rewrite (starts_within _ _ Hwf).
  destruct (produce_spec (randomBoundary env 1) ctype (content fc) (ra :: rb :: rest)
              false [] Hwf) as [Hend _].
  destruct (produce _ _ _ _ _ _ _) as [piped ending]. cbn [snd] in Hend. subst ending.
  eauto.
Qed.

Lemma checkLastModified_content_type env rw req modtime :
  RespHeader (fst (checkLastModified env rw req modtime)) !! "Content-Type" = None ->
  snd (checkLastModified env rw req modtime) = false ->
  RespHeader rw !! "Content-Type" = None.
Proof.
  unfold checkLastModified.
  destruct (modtime =? 0); [auto|].
  destruct (ParseTime env _) as [t|];
    [destruct (modtime <? t + 1 * second); [discriminate 2|]|];
    cbn [fst snd RespHeader setHeader]; unfold Header_Set;
    rewrite lookup_insert_ne by keys_differ; auto.
Qed.

(** The handler returns, without a panic, on every request for a member of
    the store whose Range header has no range of negative length, as long
    as the content type need not be sniffed from content that is not
    empty (the response has a Content-Type, or the extension has a MIME
    type, or the content is empty). *)
Theorem ServeHTTP_returns env za rw req fc :
  lookupFile za (storeKey req) = Some fc ->
  len (content fc) <= int64_max ->
  (RespHeader rw !! "Content-Type" <> None
   \/ TypeByExtension env (Ext (storeKey req)) <> ""
   \/ content fc = []) ->
  (forall rs, parseRange (Header_Get (ReqHeader req) "Range") (len (content fc)) = Ok rs ->
              Forall (fun r => 0 <= length r) rs) ->
  exists w', ServeHTTP env za rw req = Returned w'.
Proof.
  intros Hlook Hmax Htype Hranges.
  rewrite (ServeHTTP_found _ _ _ _ _ Hlook).
  destruct (checkLastModified env rw req (lastModified fc)) as [w1 done] eqn:Elm.
  destruct done; [eauto|].
  unfold serveChecked.
  destruct (checkETag w1 req) as [[w2 rangeReq] done] eqn:Eet.
  destruct done; [eauto|].
  pose proof (checkETag_continue _ _ _ _ Eet) as ->.
  assert (Hrr : rangeReq = "" \/ rangeReq = Header_Get (ReqHeader req) "Range").
  { revert Eet. unfold checkETag.
    repeat match goal with
    | |- context [if ?b then _ else _] => destruct b
    end; intros E; inversion E; subst; auto. }
  destruct (resolveContentType_ok env w1 (storeKey req) fc) as [ctype ->].
  { destruct Htype as [H|[H|H]]; [left|now right; left|now right; right].
    intros Hnone. apply H.
    pose proof (checkLastModified_content_type env rw req (lastModified fc)) as C.
    rewrite Elm in C. now apply C. }
  apply serveRanges_returns. intros rs Hrs.
  assert (Hnn : Forall (fun r => 0 <= length r) rs).
  { destruct Hrr as [->| ->]; [|now apply Hranges].
    vm_compute in Hrs. inversion Hrs. constructor. }
  pose proof (len_nonneg (content fc)).
  pose proof (parseRange_bounds _ _ _ (conj H Hmax) Hrs) as Hb.
  clear -Hnn Hb. induction rs as [|r rs IH]; [constructor|].
  inversion Hnn; inversion Hb; subst. constructor; [|now apply IH].
  match goal with H : _ \/ _ |- _ => destruct H as [?|?]; [lia|assumption] end.
Qed.

(** [f.txt] with two ranges, the second one of them the last three
    bytes. *)
Lemma ServeHTTP_returns_witness :
  exists w',
    ServeHTTP exampleEnv oneFileStore emptyResponse
      (get "/f.txt" [("Range", "bytes=0-0,-3")]) = Returned w'.
Proof.
  apply (ServeHTTP_returns exampleEnv oneFileStore emptyResponse
           (get "/f.txt" [("Range", "bytes=0-0,-3")])
           (mkFile "f.txt" false jan1_instant digits10)).
  - vm_compute. reflexivity.
  - vm_compute. congruence.
  - right. left. vm_compute. congruence.
  - intros rs Hrs. vm_compute in Hrs. inversion Hrs.
    repeat constructor; vm_compute; congruence.
Defined.

(* ===================================================================== *)
(** ** More on loading *)
(* ===================================================================== *)

Lemma path_openZipLoop members : forall za fc za' err,
  openZipLoop za fc members = (za', err) -> path za' = path za.
Proof.
  induction members as [|f rest IH]; intros za fc za' err H; simpl in H.
  - now inversion H.
  - destruct (zOpen f) as [[data|e]|e]; try (now inversion H).
    apply IH in H. exact H.
Qed.

(** The keys after the zip loop: the names of the members, all holding the
    pointer to [fc], and the keys there were before. *)
Lemma openZipLoop_keys members : forall za fc za',
  openZipLoop za fc members = (za', None) ->
  forall k, files za' !! k
            = if decide (k ∈ map zName members) then Some fc else files za !! k.
Proof.
  induction members as [|f rest IH]; intros za fc za' H k; simpl in H.
  - inversion H; subst. rewrite decide_False; [reflexivity|]. apply not_elem_of_nil.
  - destruct (zOpen f) as [[data|e]|e]; [|discriminate|discriminate].
    rewrite (IH _ _ _ H k). cbn [files setFile setCell map].
    destruct (decide (k ∈ map zName rest)) as [Hin|Hnin].
    + rewrite decide_True; [reflexivity|]. apply elem_of_cons. now right.
    + destruct (decide (k = zName f)) as [->|Hne].
      * rewrite lookup_insert_eq, decide_True; [reflexivity|]. apply elem_of_cons. now left.
      * rewrite lookup_insert_ne by congruence.
        rewrite decide_False; [reflexivity|].
        intros Hin. apply elem_of_cons in Hin as [?|?]; congruence.
Qed.

Lemma openZipLoop_readable members : forall za fc,
  Forall readable members -> exists za', openZipLoop za fc members = (za', None).
Proof.
  induction members as [|f rest IH]; intros za fc Hall; simpl; [eauto|].
  inversion Hall as [|? ? [data Hf] Hrest]; subst. rewrite Hf. now apply IH.
Qed.

Lemma openZipLoop_unreadable members : forall za fc,
  Exists (fun f => ~ readable f) members ->
  exists za' e, openZipLoop za fc members = (za', Some e).
Proof.
  induction members as [|f rest IH]; intros za fc Hex; [inversion Hex|].
  simpl. destruct (zOpen f) as [[data|e]|e] eqn:Ef; [|eauto|eauto].
  apply IH. inversion Hex as [? ? Hbad|]; subst; [|assumption].
  exfalso. apply Hbad. now exists data.
Qed.

(** Loading a zip archive is all or nothing.  When the archive cannot be
    opened, or a member cannot be opened or read to its end, construction
    returns the error and the directory server, and no archive handler.
    When every member can be read, it returns an archive handler whose
    keys are exactly the names of the members. *)
Theorem zip_load_all_or_nothing fs pathname :
  HasSuffix (ToLower pathname) ".zip" = true ->
  (forall e, zip_OpenReader fs pathname = Err e ->
     NewZipAssets fs pathname [] = (FileServer (basename fs pathname), Some e))
  /\ (forall members, zip_OpenReader fs pathname = Ok members ->
        (Exists (fun f => ~ readable f) members ->
         exists e, NewZipAssets fs pathname []
                   = (FileServer (basename fs pathname), Some e))
        /\ (Forall readable members ->
            exists za, NewZipAssets fs pathname [] = (Archive za, None)
                       /\ dom (files za) = list_to_set (map zName members))).
Proof.
  intros Hzip. unfold NewZipAssets. rewrite Hzip. unfold openZip, newCell.
  cbn [path setCell]. split.
  - intros e ->. reflexivity.
  - intros members ->. split.
    + intros Hex.
      match goal with
      | |- context [openZipLoop ?a ?b members] =>
          destruct (openZipLoop_unreadable members a b Hex) as (za' & e & ->)
      end.
      eauto.
    + intros Hall.
      match goal with
      | |- context [openZipLoop ?a ?b members] =>
          destruct (openZipLoop_readable members a b Hall) as (za' & Hloop)
      end.
      rewrite Hloop. exists za'. split; [reflexivity|].
      apply set_eq. intros k. rewrite elem_of_dom, elem_of_list_to_set.
      rewrite (openZipLoop_keys _ _ _ _ Hloop k). cbn [files].
      destruct (decide (k ∈ map zName members)) as [Hin|Hnin].
      * split; [auto|eauto].
      * split; [intros [x Hx]; cbn [files setCell] in Hx;
                now rewrite lookup_empty in Hx|tauto].
Qed.

(** [two.zip], whose two members can be read. *)
Lemma zip_load_all_or_nothing_witness :
  exists za, NewZipAssets twoFiles "two.zip" [] = (Archive za, None)
             /\ dom (files za) = {[ "a.txt"; "dir/b.bin" ]}.
Proof.
  destruct (zip_load_all_or_nothing twoFiles "two.zip") as (_ & H).
  - reflexivity.
  - destruct (H [mkZipFile "a.txt" T1 (Ok (Ok hello));
                 mkZipFile "dir/b.bin" T2 (Ok (Ok binary))]) as (_ & Hok).
    + reflexivity.
    + destruct Hok as (za & H1 & H2).
      * repeat constructor; eexists; reflexivity.
      * exists za. split; [exact H1|]. rewrite H2. cbn. set_solver.
Defined.

Lemma openZipLoop_app l1 l2 : forall za fc,
  openZipLoop za fc (l1 ++ l2)%list
  = match openZipLoop za fc l1 with
    | (za1, None) => openZipLoop za1 fc l2
    | r => r
    end.
Proof.
  induction l1 as [|f l1 IH]; intros za fc; simpl; [reflexivity|].
  destruct (zOpen f) as [[data|e]|e]; [apply IH|reflexivity|reflexivity].
Qed.

Lemma cell_setCell za l fc : cell (setCell za l fc) l = fc.
Proof. unfold cell, setCell. cbn [heap]. now rewrite lookup_insert_eq. Qed.

Lemma openZipLoop_isDir members : forall za fc za',
  openZipLoop za fc members = (za', None) ->
  isDir (cell za' fc) = isDir (cell za fc).
Proof.
  induction members as [|f rest IH]; intros za fc za' H; simpl in H.
  - now inversion H.
  - destruct (zOpen f) as [[data|e]|e]; [|discriminate|discriminate].
    rewrite (IH _ _ _ H). unfold setFile, cell. cbn [heap setCell].
    now rewrite lookup_insert_eq.
Qed.

(** What a store loaded from a zip archive holds: under the name of every
    member, the name, the mtime and the bytes of the member that comes
    last in the archive, with the directory flag unset; under any other
    key, nothing. *)
Theorem zip_store_last_member fs pathname ms f data :
  HasSuffix (ToLower pathname) ".zip" = true ->
  zip_OpenReader fs pathname = Ok (ms ++ [f])%list ->
  Forall readable ms ->
  zOpen f = Ok (Ok data) ->
  exists za,
    NewZipAssets fs pathname [] = (Archive za, None)
    /\ forall k,
         lookupFile za k
         = if decide (k ∈ map zName (ms ++ [f])%list)
           then Some (mkFile (zName f) false (zModTime f) data)
           else None.
Proof.
  intros Hzip Hopen Hms Hf. unfold NewZipAssets. rewrite Hzip.
  unfold openZip, newCell. cbn [path setCell]. rewrite Hopen.
  match goal with
  | |- context [openZipLoop ?a ?b (ms ++ [f])%list] => set (za0 := a); set (fc := b)
  end.
  assert (Hcell : cell za0 fc = zeroFile) by apply cell_setCell.
  destruct (openZipLoop_readable ms za0 fc Hms) as (za1 & H1).
  assert (Hloop : openZipLoop za0 fc (ms ++ [f])%list
                  = (setFile (setCell za1 fc
                                (mkFile (zName f) (isDir (cell za1 fc)) (zModTime f) data))
                       (zName f) fc, None)).
  { rewrite openZipLoop_app, H1. simpl. now rewrite Hf. }
  rewrite Hloop. eexists; split; [reflexivity|].
  intros k. unfold lookupFile.
  rewrite (openZipLoop_keys _ _ _ _ Hloop k).
  destruct (decide (k ∈ map zName (ms ++ [f])%list)); [|reflexivity].
  cbn [heap setFile setCell]. rewrite lookup_insert_eq.
  now rewrite (openZipLoop_isDir _ _ _ _ H1), Hcell.
Qed.

(** [two.zip]: both names lead to [dir/b.bin], no other name to
    anything. *)
Lemma zip_store_last_member_witness :
  exists za,
    NewZipAssets twoFiles "two.zip" [] = (Archive za, None)
    /\ lookupFile za "a.txt" = Some (mkFile "dir/b.bin" false T2 binary)
    /\ lookupFile za "c.txt" = None.
Proof.
  destruct (zip_store_last_member twoFiles "two.zip"
              [mkZipFile "a.txt" T1 (Ok (Ok hello))]
              (mkZipFile "dir/b.bin" T2 (Ok (Ok binary))) binary)
    as (za & H1 & H2).
  - reflexivity.
  - reflexivity.
  - repeat constructor. eexists; reflexivity.
  - reflexivity.
  - exists za. split; [exact H1|]. split.
    + rewrite (H2 "a.txt").
      destruct (decide _) as [?|N]; [reflexivity|].
      exfalso. apply N. cbn. apply elem_of_cons. now left.
    + rewrite (H2 "c.txt").
      destruct (decide _) as [Y|?]; [|reflexivity].
      exfalso. cbn in Y. apply elem_of_cons in Y as [Y|Y]; [discriminate|].
      apply elem_of_cons in Y as [Y|Y]; [discriminate|].
      now apply elem_of_nil in Y.
Defined.






Lemma beforeDot_stem stem rest :
  str_all (fun a => negb (Ascii.eqb a ".")) stem = true ->
  beforeDot (stem +:+ String "." rest) = stem.
Proof.
  induction stem as [|a stem IH]; intros H.
  - reflexivity.
  - cbn [str_all] in H. apply andb_true_iff in H as [Ha Hs].
    apply negb_true_iff in Ha.
    change (beforeDot (String a (stem +:+ String "." rest)) = String a stem).
    cbn [beforeDot]. rewrite Ha. now rewrite (IH Hs).
Qed.

(** The debug flag.  With [true] as first argument construction reads no
    archive and returns the server of the directory named like the
    archive with everything from the first dot of its file name dropped;
    [false], or an argument that is not a boolean, changes nothing. *)
Theorem debug_serves_directory fs pathname args stem ext :
  path_Base fs pathname = stem +:+ "." +:+ ext ->
  str_all (fun a => negb (Ascii.eqb a ".")) stem = true ->
  NewZipAssets fs pathname (BoolArg true :: args)
  = (FileServer (path_Join fs (path_Dir fs pathname) stem), None)
  /\ NewZipAssets fs pathname (BoolArg false :: args) = NewZipAssets fs pathname []
  /\ NewZipAssets fs pathname (OtherArg :: args) = NewZipAssets fs pathname [].
Proof.
  intros Hbase Hstem. refine (conj _ (conj eq_refl eq_refl)).
  unfold NewZipAssets, basename. rewrite Hbase.
  change (stem +:+ "." +:+ ext) with (stem +:+ String "." ext).
  now rewrite (beforeDot_stem stem ext Hstem).
Qed.

(** [two.tar.gz] in debug mode, in a file system whose base name of a
    path is the path. *)
Lemma debug_serves_directory_witness :
  NewZipAssets twoFiles "two.tar.gz" [BoolArg true] = (FileServer "two", None).
Proof.
  apply (debug_serves_directory twoFiles "two.tar.gz" [] "two" "tar.gz");
    reflexivity.
Defined.








(* ===================================================================== *)
(** ** The first version *)
(* ===================================================================== *)

Lemma V0_openZipLoop_other members : forall za za' k,
  V0.openZipLoop za members = (za', None) ->
  k ∉ map zName members ->
  V0.files za' !! k = V0.files za !! k.
Proof.
  induction members as [|f rest IH]; intros za za' k H Hk; simpl in H.
  - now inversion H.
  - destruct (zOpen f) as [[data|e]|e]; [|discriminate|discriminate].
    rewrite (IH _ _ k H); cbn [V0.files].
    + apply lookup_insert_ne. intros E. apply Hk. apply elem_of_cons. now left.
    + intros Hin. apply Hk. apply elem_of_cons. now right.
Qed.

Lemma V0_openZipLoop_member members : forall za za',
  V0.openZipLoop za members = (za', None) ->
  NoDup (map zName members) ->
  forall f data, f ∈ members -> zOpen f = Ok (Ok data) ->
  V0.files za' !! zName f = Some data.
Proof.
  induction members as [|f0 rest IH]; intros za za' H Hnd f data Hin Hf; simpl in H.
  - now apply elem_of_nil in Hin.
  - cbn [map] in Hnd. apply NoDup_cons in Hnd as [Hfresh Hnd].
    destruct (zOpen f0) as [[data0|e]|e] eqn:E0; [|discriminate|discriminate].
    apply elem_of_cons in Hin as [->|Hin].
    + rewrite (V0_openZipLoop_other _ _ _ _ H Hfresh). cbn [V0.files].
      rewrite lookup_insert_eq. congruence.
    + now apply (IH _ _ H Hnd).
Qed.

Lemma V0_openZipLoop_readable members : forall za,
  Forall readable members -> exists za', V0.openZipLoop za members = (za', None).
Proof.
  induction members as [|f rest IH]; intros za Hall; simpl; [eauto|].
  inversion Hall as [|? ? [data Hf] Hrest]; subst. rewrite Hf. now apply IH.
Qed.

(** In the first version a store loaded from a zip archive whose member
    names are distinct gives back, under each name, the bytes of that
    member, and the handler writes exactly those bytes for the name after
    a slash; a key that is no member name is not in the store, and the
    handler then writes nothing at all, not even a status. *)
Theorem V0_load_then_serve fs pathname members :
  HasSuffix (ToLower pathname) "zip" = true ->
  zip_OpenReader fs pathname = Ok members ->
  Forall readable members ->
  NoDup (map zName members) ->
  exists za,
    V0.NewZipAssets fs pathname = (za, None)
    /\ (forall f data, f ∈ members -> zOpen f = Ok (Ok data) ->
          V0.files za !! zName f = Some data
          /\ forall rw m h,
               V0.ServeHTTP za rw (mkRequest m ("/" +:+ zName f) h) = Write rw data)
    /\ (forall req, storeKey req ∉ map zName members ->
          V0.files za !! storeKey req = None
          /\ forall rw, V0.ServeHTTP za rw req = rw).
Proof.
  intros Hzip Hopen Hall Hnd. unfold V0.NewZipAssets. rewrite Hzip.
  unfold V0.openZip. cbn [V0.path]. rewrite Hopen.
  destruct (V0_openZipLoop_readable members (V0.mkZA pathname ∅) Hall) as (za & Hloop).
  rewrite Hloop. exists za. split; [reflexivity|]. split.
  - intros f data Hin Hf.
    pose proof (V0_openZipLoop_member _ _ _ Hloop Hnd f data Hin Hf) as Hget.
    split; [exact Hget|].
    intros rw m h. unfold V0.ServeHTTP.
    assert (Hkey : storeKey (mkRequest m ("/" +:+ zName f) h) = zName f).
    { unfold storeKey. cbn [URLPath].
      change ("/" +:+ zName f) with (String "/" (zName f)).
      cbn [HasPrefix Ascii.eqb Bool.eqb drop_str]. now rewrite HasPrefix_nil. }
    now rewrite Hkey, Hget.
  - intros req Hk.
    pose proof (V0_openZipLoop_other _ _ _ _ Hloop Hk) as Hget.
    cbn [V0.files] in Hget. rewrite lookup_empty in Hget.
    split; [exact Hget|]. intros rw. unfold V0.ServeHTTP. now rewrite Hget.
Qed.

(** [two.zip] in the first version: [a.txt] is served as [hello]. *)
Lemma V0_load_then_serve_witness :
  exists za,
    V0.NewZipAssets twoFiles "two.zip" = (za, None)
    /\ V0.ServeHTTP za emptyResponse (mkRequest "GET" "/a.txt" ∅)
       = Write emptyResponse hello.
Proof.
  destruct (V0_load_then_serve twoFiles "two.zip"
              [mkZipFile "a.txt" T1 (Ok (Ok hello));
               mkZipFile "dir/b.bin" T2 (Ok (Ok binary))])
    as (za & H1 & H2 & _).
  - reflexivity.
  - reflexivity.
  - repeat constructor; eexists; reflexivity.
  - cbn [map zName]. apply NoDup_cons. split.
    + intros H. apply elem_of_cons in H as [H|H]; [discriminate|].
      now apply elem_of_nil in H.
    + apply NoDup_cons. split; [apply not_elem_of_nil|apply NoDup_nil_2].
  - exists za. split; [exact H1|].
    destruct (H2 (mkZipFile "a.txt" T1 (Ok (Ok hello))) hello) as [_ H].
    + apply elem_of_cons. now left.
    + reflexivity.
    + apply (H emptyResponse "GET" ∅).
Defined.

Lemma V0_openZipLoop_app l1 l2 : forall za,
  V0.openZipLoop za (l1 ++ l2)%list
  = match V0.openZipLoop za l1 with
    | (za1, None) => V0.openZipLoop za1 l2
    | r => r
    end.
Proof.
  induction l1 as [|f l1 IH]; intros za; simpl; [reflexivity|].
  destruct (zOpen f) as [[data|e]|e]; [apply IH|reflexivity|reflexivity].
Qed.

Lemma V0_openZipLoop_dom members : forall za za',
  V0.openZipLoop za members = (za', None) ->
  dom (V0.files za') = dom (V0.files za) ∪ list_to_set (map zName members).
Proof.
  induction members as [|f rest IH]; intros za za' H; simpl in H.
  - inversion H; subst. cbn. set_solver.
  - destruct (zOpen f) as [[data|e]|e]; [|discriminate|discriminate].
    rewrite (IH _ _ H). cbn [V0.files map list_to_set]. rewrite dom_insert_L.
    set_solver.
Qed.

(** In the first version loading is not all or nothing: when a member
    cannot be read, construction returns the error together with a store
    that holds the members read before it. *)
Theorem V0_partial_store fs pathname ms f rest :
  HasSuffix (ToLower pathname) "zip" = true ->
  zip_OpenReader fs pathname = Ok (ms ++ f :: rest)%list ->
  Forall readable ms ->
  ~ readable f ->
  exists za e,
    V0.NewZipAssets fs pathname = (za, Some e)
    /\ dom (V0.files za) = list_to_set (map zName ms).
Proof.
  intros Hzip Hopen Hms Hf. unfold V0.NewZipAssets. rewrite Hzip.
  unfold V0.openZip. cbn [V0.path]. rewrite Hopen.
  destruct (V0_openZipLoop_readable ms (V0.mkZA pathname ∅) Hms) as (za & Hloop).
  rewrite V0_openZipLoop_app, Hloop. simpl.
  pose proof (V0_openZipLoop_dom _ _ _ Hloop) as Hdom.
  cbn [V0.files] in Hdom. rewrite dom_empty_L, (left_id_L ∅ (∪)) in Hdom.
  destruct (zOpen f) as [[data|e]|e] eqn:Ef.
  - exfalso. apply Hf. now exists data.
  - exists za, e. auto.
  - exists za, e. auto.
Qed.

(** [bad.zip] in the first version: the error comes with a store that
    holds [a.txt]. *)
Lemma V0_partial_store_witness :
  exists za e,
    V0.NewZipAssets brokenFiles "bad.zip" = (za, Some e)
    /\ dom (V0.files za) = {[ "a.txt" ]}.
Proof.
  destruct (V0_partial_store brokenFiles "bad.zip"
              [mkZipFile "a.txt" T1 (Ok (Ok hello))]
              (mkZipFile "b.txt" T2 (Ok (Err "unexpected EOF")))
              [mkZipFile "c.txt" T2 (Ok (Ok binary))])
    as (za & e & H1 & H2).
  - reflexivity.
  - reflexivity.
  - repeat constructor. eexists; reflexivity.
  - intros [data Hd]. discriminate Hd.
  - exists za, e. split; [exact H1|]. rewrite H2. cbn. set_solver.
Defined.
